(** * GenomicsDB query API header: PLINK/BGEN emitter, field accessors, scan ranges

    A shallow embedding of the inline code of
    [src/main/cpp/include/api/genomicsdb.h]:

    - [SCAN_FULL], in the two revisions of the header;
    - [genomic_field_t] and its offset-checked accessors;
    - [GenomicsDBPlinkProcessor]: the constructor, the BED bit packer
      ([write_to_bed], [flush_to_bed]), the BGEN probability-slot
      enumerators ([bgen_enumerate_phased], [bgen_enumerate_unphased]),
      [bgen_empty_cell] and [bgen_finish_gt];
    - [genomic_field_type_t], the texts [to_string] and [str_value] make of
      a field, and the totals the constructor computes for the progress
      bar.

    Conventions.  The target is x86-64: little-endian, [char] signed,
    [int] 32 bits, [size_t] 64 bits.  A byte in a file, a string or a
    [char] member is its bit pattern, a [Z] in [0, 256).  Loop counters and
    the ploidy and allele arguments are C++ [int]s modelled by [Z]; for a
    non-negative ploidy every intermediate value of the enumerators lies
    between -1 and the ploidy, and the running slot index is bounded by the
    number of callbacks (lemma [phased_calls_index_range]), so no signed
    overflow occurs on runs that fit the type.  Output streams are the
    list of bytes written so far; trace output on [std::cout] is no part of
    the state. *)

From Stdlib Require Import ZArith NArith List Lia Bool String Ascii.
From Stdlib Require Import DecimalString ZifyNat Sorted.
From stdpp Require Import base list sorting.
Local Open Scope Z_scope.

Ltac Zify.zify_post_hook ::= Z.to_euclidean_division_equations.

(** ** Machine-level encodings *)

(** Truncation of an [int] value to a [char] (its bit pattern). *)
Definition to_char (z : Z) : Z := z mod 256.

(** The value of a (signed) [char] with the given bit pattern. *)
Definition char_value (b : Z) : Z := if b <? 128 then b else b - 256.

(** Conversion to [int32_t]. *)
Definition to_int32 (z : Z) : Z := (z + 2 ^ 31) mod 2 ^ 32 - 2 ^ 31.

(** [stream.write((char* )&x, n)]: the [n] low-order bytes of [x], least
    significant first. *)
Fixpoint le_bytes (n : nat) (x : Z) : list Z :=
  match n with
  | O => []
  | S m => x mod 256 :: le_bytes m (Z.shiftr x 8)
  end.

(** The unsigned number a little-endian byte string stands for. *)
Fixpoint le_value (bs : list Z) : Z :=
  match bs with
  | [] => 0
  | b :: rest => b + 256 * le_value rest
  end.

Definition ascii_code (c : ascii) : Z := Z.of_N (N_of_ascii c).

(** [for (int i = 0; i < n; i++) body(i)], threading the state [a]:
    iterations [0 .. n-1] in ascending order. *)
Fixpoint for_upto {A : Type} (n : nat) (body : Z -> A -> A) (a : A) : A :=
  match n with
  | O => a
  | S m => body (Z.of_nat m) (for_upto m body a)
  end.

(** ** Scan ranges *)

Definition INT64_MAX : Z := 2 ^ 63 - 1.

(** [typedef std::vector<std::pair<int64_t, int64_t>> genomicsdb_ranges_t] *)
Definition genomicsdb_ranges_t : Type := list (Z * Z).

(** The earlier revision of the header (first document of the file):
    [#define SCAN_FULL {{0, INT64_MAX}}], the default of both
    [column_ranges] and [row_ranges]. *)
Module ApiV1.
Definition SCAN_FULL : genomicsdb_ranges_t := [(0, INT64_MAX)].
Definition query_variants_column_ranges_default := SCAN_FULL.
Definition query_variants_row_ranges_default := SCAN_FULL.
Definition query_variant_calls_column_ranges_default := SCAN_FULL.
Definition query_variant_calls_row_ranges_default := SCAN_FULL.
End ApiV1.

(** The current revision: [#define SCAN_FULL {{0, INT64_MAX-1}}], the
    default of [column_ranges] only ([row_ranges = {}]). *)
Definition SCAN_FULL : genomicsdb_ranges_t := [(0, INT64_MAX - 1)].
Definition query_variants_column_ranges_default := SCAN_FULL.
Definition query_variants_row_ranges_default : genomicsdb_ranges_t := [].
Definition query_variant_calls_column_ranges_default := SCAN_FULL.
Definition query_variant_calls_row_ranges_default : genomicsdb_ranges_t := [].

(** ** Field values *)

Module Field.

(** [GenomicsDBException(m)] *)
Inductive GenomicsDBException : Type :=
| Exception (m : string).

(** A call either returns or throws. *)
Inductive result (A : Type) : Type :=
| Returns (a : A)
| Throws (e : GenomicsDBException).
Arguments Returns {A} a.
Arguments Throws {A} e.

Definition bind {A B : Type} (r : result A) (k : A -> result B) : result B :=
  match r with
  | Returns a => k a
  | Throws e => Throws e
  end.

(** [ptr] is the memory the field points to: [ptr i] is the byte at
    address [ptr + i]. *)
Record genomic_field_t : Type := {
  name : string;
  ptr : N -> Z;
  num_elements : N
}.

(** [std::to_string] of an unsigned integer. *)
Definition to_string (n : N) : string := NilZero.string_of_uint (N.to_uint n).

Definition offset_message (f : genomic_field_t) (offset : N) : string :=
  ("Genomic Field=" ++ name f ++ " offset=" ++ to_string offset
     ++ " greater than number of elements")%string.

Definition check_offset (f : genomic_field_t) (offset : N) : result unit :=
  if (num_elements f <=? offset)%N
  then Throws (Exception (offset_message f offset))
  else Returns tt.

(** The [width] bytes of element [offset] of an array of [width]-byte
    elements at [ptr]. *)
Definition element_bytes (f : genomic_field_t) (width offset : N) : list Z :=
  map (fun i => ptr f (width * offset + N.of_nat i)%N) (seq 0 (N.to_nat width)).

Definition int_value_at (f : genomic_field_t) (offset : N) : result Z :=
  bind (check_offset f offset) (fun _ =>
    Returns (to_int32 (le_value (element_bytes f 4 offset)))).

(** A [float] is returned as its 32-bit IEEE-754 pattern. *)
Definition float_value_at (f : genomic_field_t) (offset : N) : result Z :=
  bind (check_offset f offset) (fun _ =>
    Returns (le_value (element_bytes f 4 offset))).

Definition char_value_at (f : genomic_field_t) (offset : N) : result Z :=
  bind (check_offset f offset) (fun _ =>
    Returns (ptr f offset)).

End Field.

(** ** The PLINK/BGEN emitter *)

(** The members of [GenomicsDBPlinkProcessor] the inline code reads or
    writes.  [bed_file] and [bgen_file] hold the bytes written so far. *)
Record plink_state : Type := {
  compression : Z;        (* int: 0 for none, 1 for zlib, 2 for zstd *)
  bed_file : list Z;
  bgen_file : list Z;
  bed_buf : Z;            (* char *)
  bed_buf_state : Z;      (* char *)
  min_ploidy : Z;         (* char *)
  max_ploidy : Z;         (* char *)
  bgen_gt_size : Z;       (* int32_t *)
  codec_buf : list Z      (* std::string *)
}.

Definition set_bed (file : list Z) (buf state : Z) (s : plink_state) : plink_state :=
  {| compression := compression s; bed_file := file; bgen_file := bgen_file s;
     bed_buf := buf; bed_buf_state := state;
     min_ploidy := min_ploidy s; max_ploidy := max_ploidy s;
     bgen_gt_size := bgen_gt_size s; codec_buf := codec_buf s |}.

Definition set_codec_buf (buf : list Z) (s : plink_state) : plink_state :=
  {| compression := compression s; bed_file := bed_file s; bgen_file := bgen_file s;
     bed_buf := bed_buf s; bed_buf_state := bed_buf_state s;
     min_ploidy := min_ploidy s; max_ploidy := max_ploidy s;
     bgen_gt_size := bgen_gt_size s; codec_buf := buf |}.

(** *** Construction *)

(** The state on entry to the constructor body: members with a default
    initialiser hold it, [min_ploidy], [max_ploidy] and [bgen_gt_size] have
    none and hold whatever [junk] was in memory; no file is open yet. *)
Definition member_initialisers (junk : Z * Z * Z) : plink_state :=
  {| compression := 0; bed_file := []; bgen_file := [];
     bed_buf := 0; bed_buf_state := 0;
     min_ploidy := fst (fst junk); max_ploidy := snd (fst junk);
     bgen_gt_size := snd junk; codec_buf := [] |}.

Definition magic_numbers : list Z := [0x6c; 0x1b; 0x01].

Definition bgen_magic_numbers : list Z :=
  map ascii_code ["b"; "g"; "e"; "n"]%char.

(** The body of the constructor, as far as the two binary files go: the
    codec, the text files and the totals of the progress bar are left out.
    Both files are opened with [std::ios::out], which truncates them. *)
Definition constructor_body (s : plink_state) : plink_state :=
  let bed := [] in
  let bgen := [] in
  let bed := bed ++ magic_numbers in
  let zero := 0 in
  let offset := 20 in
  let bgen := bgen ++ le_bytes 4 offset in
  let bgen := bgen ++ le_bytes 4 offset in
  let bgen := bgen ++ le_bytes 4 zero in
  let bgen := bgen ++ le_bytes 4 zero in
  let bgen := bgen ++ bgen_magic_numbers in
  (* int32_t flags = 0b10000000000000000000000000001000; *)
  let flags := to_int32 0x80000008 in
  let flags := Z.lor flags (compression s) in
  let bgen := bgen ++ le_bytes 4 flags in
  {| compression := compression s; bed_file := bed; bgen_file := bgen;
     bed_buf := bed_buf s; bed_buf_state := bed_buf_state s;
     min_ploidy := min_ploidy s; max_ploidy := max_ploidy s;
     bgen_gt_size := bgen_gt_size s; codec_buf := codec_buf s |}.

Definition GenomicsDBPlinkProcessor (junk : Z * Z * Z) : plink_state :=
  constructor_body (member_initialisers junk).

(** *** BED: two bits per genotype *)

Definition flush_to_bed (s : plink_state) : plink_state :=
  if bed_buf_state s =? 0 then s
  else set_bed (bed_file s ++ [bed_buf s]) 0 0 s.

Definition write_to_bed (x : Z) (s : plink_state) : plink_state :=
  (* bed_buf += x << bed_buf_state * 2; *)
  let buf := to_char (bed_buf s + Z.shiftl x (char_value (bed_buf_state s) * 2)) in
  (* ++bed_buf_state %= 4; *)
  let state := to_char (bed_buf_state s + 1) in
  let state := to_char (Z.rem (char_value state) 4) in
  if state =? 0
  then set_bed (bed_file s ++ [buf]) 0 state s
  else set_bed (bed_file s) buf state s.

(** The calls the header offers on the BED stream. *)
Inductive bed_call : Type :=
| Write_to_bed (x : Z)
| Flush_to_bed.

Definition bed_step (s : plink_state) (c : bed_call) : plink_state :=
  match c with
  | Write_to_bed x => write_to_bed x s
  | Flush_to_bed => flush_to_bed s
  end.

Definition bed_run (calls : list bed_call) (s : plink_state) : plink_state :=
  fold_left bed_step calls s.

(** *** BGEN: enumeration of probability slots *)

Section Enumerate.
Context {St : Type}.

(** [std::function<void(const std::vector<int>&, int)>], acting on the
    state [St] it captures. *)
Definition callback_t : Type := list Z -> Z -> St -> St.

Definition bgen_enumerate_phased (ploidy alleles : Z) (callback : callback_t)
    (drop_last : bool) (st : St) : St :=
  let ind := -1 in
  let limit := alleles - Z.b2z drop_last in
  snd (for_upto (Z.to_nat ploidy) (fun i =>
         for_upto (Z.to_nat limit) (fun j '(ind, st) =>
           let ind := ind + 1 in
           (ind, callback [i; j] ind st)))
       (ind, st)).

Section Lambda.
(* captured by reference; none of them is assigned in the lambda *)
Variables (ploidy alleles : Z) (drop_last : bool).
Variables (callback : callback_t) (ind : Z).

(** The recursive lambda.  [env] is the shared [allele_counts] vector
    together with the callback's state.  The lambda is entered at depth
    [alleles - 1], so every index it writes lies inside the vector. *)
Fixpoint enumerate_unphased (depth : nat) (used : Z) (env : list Z * St)
    : list Z * St :=
  let limit :=
    ploidy - used - Z.b2z ((Z.of_nat depth =? alleles - 1) && drop_last) in
  match depth with
  | S depth' =>
      for_upto (Z.to_nat (limit + 1)) (fun i env =>
        let allele_counts := <[S depth' := i]> (fst env) in
        enumerate_unphased depth' (used + i) (allele_counts, snd env))
      env
  | O =>
      let allele_counts := <[0%nat := ploidy - used]> (fst env) in
      (allele_counts, callback allele_counts ind (snd env))
  end.
End Lambda.

(** For [alleles < 0] the allocation of the vector fails; for
    [alleles = 0] the vector is empty, the lambda is entered at depth -1
    and either its loop does not run (negative ploidy) or it writes outside
    the vector.  [None] stands for these runs without a defined result. *)
Definition bgen_enumerate_unphased (ploidy alleles : Z) (callback : callback_t)
    (drop_last : bool) (st : St) : option St :=
  if alleles <? 1 then
    if (alleles =? 0) && (ploidy - Z.b2z drop_last <? 0) then Some st else None
  else
    let ind := -1 in
    let allele_counts := replicate (Z.to_nat alleles) 0 in
    Some (snd (enumerate_unphased ploidy alleles drop_last callback ind
                 (Z.to_nat (alleles - 1)) 0 (allele_counts, st))).
End Enumerate.

(** Running a callback on a recorded call. *)
Definition apply_call {St : Type} (callback : @callback_t St) (st : St)
    (call : list Z * Z) : St :=
  callback (fst call) (snd call) st.

(** A callback that records its arguments. *)
Definition record_call : @callback_t (list (list Z * Z)) :=
  fun v ind calls => calls ++ [(v, ind)].

Definition phased_calls (ploidy alleles : Z) (drop_last : bool) : list (list Z * Z) :=
  bgen_enumerate_phased ploidy alleles record_call drop_last [].

Definition unphased_calls (ploidy alleles : Z) (drop_last : bool)
    : option (list (list Z * Z)) :=
  bgen_enumerate_unphased ploidy alleles record_call drop_last [].

(** *** BGEN: genotype block *)

Definition write_zero : @callback_t plink_state :=
  fun _ _ s => set_codec_buf (codec_buf s ++ [0]) s.

Definition bgen_empty_cell (ploidy alleles : Z) (phased : bool) (s : plink_state)
    : option plink_state :=
  if phased
  then Some (bgen_enumerate_phased ploidy alleles write_zero true s)
  else bgen_enumerate_unphased ploidy alleles write_zero true s.

Section Codec.
(** [TileDBUtils::compress] with the codec made by the constructor: the
    compressed image of a buffer. *)
Variable compress : list Z -> list Z.

(** Indices 7 and 8 must lie inside [codec_buf]; no defined result
    otherwise. *)
Definition bgen_finish_gt (s : plink_state) : option plink_state :=
  if (8 <? length (codec_buf s))%nat then
    let buf := <[7%nat := min_ploidy s]> (codec_buf s) in
    let buf := <[8%nat := max_ploidy s]> buf in
    let uncompressed_size := Z.of_nat (length buf) in
    let bgen :=
      if compression s =? 0 then
        let bgen := bgen_file s ++ le_bytes 4 uncompressed_size in
        bgen ++ buf
      else
        let data := compress buf in
        let data_size := Z.of_nat (length data) in
        let total_size := (data_size + 4) mod 2 ^ 64 in
        let bgen := bgen_file s ++ le_bytes 4 total_size in
        let bgen := bgen ++ le_bytes 4 uncompressed_size in
        bgen ++ data in
    Some {| compression := compression s; bed_file := bed_file s;
            bgen_file := bgen;
            bed_buf := bed_buf s; bed_buf_state := bed_buf_state s;
            min_ploidy := to_char 64; max_ploidy := to_char (-1);
            bgen_gt_size := 0; codec_buf := [] |}
  else None.
End Codec.

(** ** Notions the statements are written in *)

(** *** Binomial coefficients, by Pascal's rule *)
Fixpoint binom (n k : nat) : nat :=
  match n, k with
  | _, O => 1%nat
  | O, S _ => 0%nat
  | S n', S k' => (binom n' k' + binom n' (S k'))%nat
  end.

(** *** Allele-count vectors *)

Definition vector_sum (v : list Z) : Z := fold_right Z.add 0 v.

(** [(a_1, ..., a_K)], non-negative, summing to the ploidy. *)
Definition is_count_vector (ploidy : Z) (K : nat) (v : list Z) : Prop :=
  length v = K /\ Forall (fun a => 0 <= a) v /\ vector_sum v = ploidy.

(** [(0, ..., 0, P)] *)
Definition last_vector (ploidy : Z) (K : nat) : list Z :=
  replicate (K - 1) 0 ++ [ploidy].

(** Lexicographic order, first component most significant. *)
Fixpoint lex_lt (v w : list Z) : Prop :=
  match v, w with
  | x :: v', y :: w' => x < y \/ (x = y /\ lex_lt v' w')
  | [], _ :: _ => True
  | _, [] => False
  end.

(** [(a_K, ..., a_2)] of [(a_1, ..., a_K)] *)
Definition upper_counts (v : list Z) : list Z := rev (tail v).

(** The order of the nested loops of [enumerate_unphased]: [a_K] is the
    counter of the outermost loop, [a_2] of the innermost. *)
Definition loop_order (v w : list Z) : Prop :=
  lex_lt (upper_counts v) (upper_counts w).

(** Colex order on [(a_K, ..., a_2)]: the last component, [a_2], is the
    most significant and [a_K] the least, so [a_K] varies innermost. *)
Definition colex_on_upper_counts (v w : list Z) : Prop :=
  lex_lt (rev (upper_counts v)) (rev (upper_counts w)).

(** All count vectors of [k] entries and sum [n], [a_k] outermost.
    [count_vectors_upto k n m] are those of [k + 1] entries whose last
    entry is below [m]. *)
Fixpoint count_vectors (k n : nat) : list (list Z) :=
  match k with
  | O => []
  | S k' =>
      match k' with
      | O => [[Z.of_nat n]]
      | S _ =>
          flat_map (fun i => map (fun v => v ++ [Z.of_nat i])
                                 (count_vectors k' (n - i)))
                   (seq 0 (S n))
      end
  end.

Definition count_vectors_upto (k n m : nat) : list (list Z) :=
  flat_map (fun i => map (fun v => v ++ [Z.of_nat i]) (count_vectors k (n - i)))
           (seq 0 m).

(** The slots of the phased layout: haplotype outer, allele inner. *)
Definition haplotype_slots (ploidy limit : nat) : list (list Z) :=
  flat_map (fun i => map (fun j => [Z.of_nat i; Z.of_nat j]) (seq 0 limit))
           (seq 0 ploidy).

(** What is said of [bgen_enumerate_unphased]: the callback runs
    [C(P+K-1, K-1) - 1] times, once per count vector other than
    [(0, ..., 0, P)], in colex order on [(a_K, ..., a_2)]. *)
Definition unphased_as_stated (ploidy alleles : Z) : Prop :=
  exists calls,
    unphased_calls ploidy alleles true = Some calls
    /\ length calls
       = (binom (Z.to_nat (ploidy + alleles - 1)) (Z.to_nat (alleles - 1)) - 1)%nat
    /\ (forall v, In v (map fst calls) <->
          is_count_vector ploidy (Z.to_nat alleles) v
          /\ v <> last_vector ploidy (Z.to_nat alleles))
    /\ StronglySorted colex_on_upper_counts (map fst calls).

(** What the nested loops do; the last line says that a run with any
    callback is the run of that callback over the recorded calls. *)
Definition unphased_in_loop_order (ploidy alleles : Z) : Prop :=
  exists calls,
    unphased_calls ploidy alleles true = Some calls
    /\ length calls
       = (binom (Z.to_nat (ploidy + alleles - 1)) (Z.to_nat (alleles - 1)) - 1)%nat
    /\ (forall v, In v (map fst calls) <->
          is_count_vector ploidy (Z.to_nat alleles) v
          /\ v <> last_vector ploidy (Z.to_nat alleles))
    /\ StronglySorted loop_order (map fst calls)
    /\ (forall v, In v (map fst calls) ->
          loop_order v (last_vector ploidy (Z.to_nat alleles)))
    /\ (forall (St : Type) (callback : @callback_t St) (st : St),
          bgen_enumerate_unphased ploidy alleles callback true st
          = Some (fold_left (apply_call callback) calls st)).

(** *** BED bytes *)

(** Bit pair [i] of a byte: bits [2i] and [2i+1]. *)
Definition bit_pair (i : Z) (byte : Z) : Z := Z.land (Z.shiftr byte (2 * i)) 3.

Definition bed_unpack_byte (byte : Z) : list Z :=
  [bit_pair 0 byte; bit_pair 1 byte; bit_pair 2 byte; bit_pair 3 byte].

Definition bed_unpack (bytes : list Z) : list Z := flat_map bed_unpack_byte bytes.

(** Four codes in one byte, code [i] in bit pair [i]. *)
Definition pack4 (a b c d : Z) : Z :=
  Z.lor a (Z.lor (Z.shiftl b 2) (Z.lor (Z.shiftl c 4) (Z.shiftl d 6))).

(** The bytes of the complete groups of four. *)
Fixpoint bed_full (codes : list Z) : list Z :=
  match codes with
  | a :: b :: c :: d :: rest => pack4 a b c d :: bed_full rest
  | _ => []
  end.

(** The byte of the trailing incomplete group, padded with zero codes. *)
Fixpoint bed_pending (codes : list Z) : Z :=
  match codes with
  | a :: b :: c :: d :: rest => bed_pending rest
  | [a; b; c] => pack4 a b c 0
  | [a; b] => pack4 a b 0 0
  | [a] => pack4 a 0 0 0
  | [] => 0
  end.

Definition bed_pack (codes : list Z) : list Z :=
  bed_full codes
  ++ (if (length codes mod 4 =? 0)%nat then [] else [bed_pending codes]).

Definition is_code (c : Z) : Prop := 0 <= c < 4.

(** *** Statements about scan ranges and field accessors *)

(** The reading of the two revisions as one: every default that is
    [SCAN_FULL], in either revision, is [[0, 2^63 - 2]]. *)
Definition scan_full_as_stated : Prop :=
  let full := [(0, 2 ^ 63 - 2)] in
  query_variants_column_ranges_default = full
  /\ query_variant_calls_column_ranges_default = full
  /\ ApiV1.query_variants_column_ranges_default = full
  /\ ApiV1.query_variants_row_ranges_default = full
  /\ ApiV1.query_variant_calls_column_ranges_default = full
  /\ ApiV1.query_variant_calls_row_ranges_default = full.

Definition succeeds {A : Type} (r : Field.result A) : Prop :=
  exists a, r = Field.Returns a.

Definition throws_offset_error {A : Type} (f : Field.genomic_field_t) (offset : N)
    (r : Field.result A) : Prop :=
  r = Field.Throws (Field.Exception
        ("Genomic Field=" ++ Field.name f ++ " offset=" ++ Field.to_string offset
           ++ " greater than number of elements")%string).


(** *** Callbacks as a list of calls *)

(** The phased slots with their running index, which starts at [first]. *)
Definition indexed_slots (first : Z) (ploidy limit : nat) : list (list Z * Z) :=
  flat_map (fun i => map (fun j => ([Z.of_nat i; Z.of_nat j],
                                    first + Z.of_nat (i * limit + j)))
                         (seq 0 limit))
           (seq 0 ploidy).

(** What a call of the lambda at [depth] does, for [P - used = n]: it
    runs the callback on the count vectors of [depth + 1] entries and sum
    [n], each followed by the entries of [allele_counts] above [depth],
    which it leaves as they are. *)
Definition level_runs {St : Type} (ploidy alleles : Z) (drop_last : bool)
    (callback : @callback_t St) (ind : Z) (depth : nat) : Prop :=
  forall (used : Z) (n : nat) (allele_counts : list Z) (st : St),
    Z.of_nat n = ploidy - used ->
    (depth < length allele_counts)%nat ->
    exists allele_counts',
      enumerate_unphased ploidy alleles drop_last callback ind depth used
        (allele_counts, st)
      = (allele_counts',
         fold_left (apply_call callback)
           (map (fun v => (v ++ drop (S depth) allele_counts, ind))
                (count_vectors (S depth) n))
           st)
      /\ length allele_counts' = length allele_counts
      /\ drop (S depth) allele_counts' = drop (S depth) allele_counts.

(** The count vectors [bgen_enumerate_unphased] hands to its callback, in
    order: for one allele the single vector [(P)]; otherwise those whose
    last entry is below [P + 1], or below [P] when the last one is dropped. *)
Definition unphased_vectors (ploidy alleles : Z) (drop_last : bool) : list (list Z) :=
  match Z.to_nat (alleles - 1) with
  | O => [[ploidy]]
  | S depth' =>
      count_vectors_upto (S depth') (Z.to_nat ploidy)
        (Z.to_nat (ploidy + 1 - Z.b2z drop_last))
  end.

(** ** Further code of the header *)

(** *** Field type descriptors *)

Module FieldType.

(** [std::type_index]: the three types the header compares with, and any
    other type. *)
Inductive type_index : Type :=
| typeid_int
| typeid_float
| typeid_char
| typeid_other (id : N).

Definition type_index_eqb (a b : type_index) : bool :=
  match a, b with
  | typeid_int, typeid_int => true
  | typeid_float, typeid_float => true
  | typeid_char, typeid_char => true
  | typeid_other i, typeid_other j => (i =? j)%N
  | _, _ => false
  end.

Record genomic_field_type_t : Type := {
  type_idx : type_index;
  is_fixed_num_elements : bool;
  num_elements : N;
  num_dimensions : N;
  contains_phase_info : bool
}.

Definition is_int (t : genomic_field_type_t) : bool :=
  type_index_eqb (type_idx t) typeid_int.

Definition is_float (t : genomic_field_type_t) : bool :=
  type_index_eqb (type_idx t) typeid_float.

Definition is_char (t : genomic_field_type_t) : bool :=
  type_index_eqb (type_idx t) typeid_char && is_fixed_num_elements t.

Definition is_string (t : genomic_field_type_t) : bool :=
  type_index_eqb (type_idx t) typeid_char && negb (is_fixed_num_elements t).

Definition contains_phase_information (t : genomic_field_type_t) : bool :=
  contains_phase_info t.

End FieldType.

(** *** The text of a field value *)

Module FieldText.

(** [std::to_string] of an [int]. *)
Definition int_to_string (z : Z) : string := NilZero.string_of_int (Z.to_int z).

(** A [std::string] made of the given bytes. *)
Definition string_of_bytes (bytes : list Z) : string :=
  string_of_list_ascii (map (fun b => ascii_of_N (Z.to_N b)) bytes).

(** What [std::string(const char* )] reads: the index of the first zero
    byte at or after [from], looked for in [fuel] bytes. *)
Fixpoint c_strlen (mem : N -> Z) (fuel : nat) (from : N) : option N :=
  match fuel with
  | O => None
  | S fuel' => if mem from =? 0 then Some from else c_strlen mem fuel' (N.succ from)
  end.

(** [std::string(ptr).substr(0, num_elements)]; [None] when no zero byte
    is met within [fuel] bytes. *)
Definition str_value (fuel : nat) (f : Field.genomic_field_t) : option string :=
  match c_strlen (Field.ptr f) fuel 0 with
  | None => None
  | Some size =>
      let count := N.min (Field.num_elements f) size in
      Some (string_of_bytes
              (map (fun i => Field.ptr f (N.of_nat i)) (seq 0 (N.to_nat count))))
  end.

Section Text.
(** [std::to_string] of a [float], given as its bit pattern, and the two
    member functions defined outside the header. *)
Variable float_to_string : Z -> string.
Variable recombine_ALT_value : Field.genomic_field_t -> Field.result string.
Variable combine_GT_vector :
  Field.genomic_field_t -> FieldType.genomic_field_type_t -> Field.result string.

(** [to_string(uint64_t offset, const genomic_field_type_t&)].  The [char]
    returned by [char_value_at] is promoted to [int]. *)
Definition to_string_at (f : Field.genomic_field_t) (offset : N)
    (field_type : FieldType.genomic_field_type_t) : Field.result string :=
  if FieldType.is_int field_type then
    Field.bind (Field.int_value_at f offset) (fun v => Field.Returns (int_to_string v))
  else if FieldType.is_float field_type then
    Field.bind (Field.float_value_at f offset) (fun v =>
      Field.Returns (float_to_string v))
  else if FieldType.is_char field_type then
    Field.bind (Field.char_value_at f offset) (fun v =>
      Field.Returns (int_to_string (char_value v)))
  else Field.Returns ""%string.

(** One round of the loop of [to_string]: [num_elements - 1] does not
    wrap, the loop being entered for [num_elements > 0] only. *)
Definition append_element (f : Field.genomic_field_t)
    (field_type : FieldType.genomic_field_type_t) (separator : string)
    (i : Z) (output : Field.result string) : Field.result string :=
  Field.bind output (fun output =>
    Field.bind (to_string_at f (Z.to_N i) field_type) (fun element =>
      let output := (output ++ element)%string in
      Field.Returns
        (if (Z.to_N i <? Field.num_elements f - 1)%N
         then (output ++ separator)%string else output))).

(** [to_string(const genomic_field_type_t&, std::string separator)];
    [None] when [str_value] runs out of fuel. *)
Definition to_string (fuel : nat) (f : Field.genomic_field_t)
    (field_type : FieldType.genomic_field_type_t) (separator : string)
    : option (Field.result string) :=
  if FieldType.is_string field_type then
    if String.eqb (Field.name f) "ALT" then Some (recombine_ALT_value f)
    else option_map Field.Returns (str_value fuel f)
  else if (Field.num_elements f =? 1)%N then Some (to_string_at f 0 field_type)
  else if String.eqb (Field.name f) "GT" then Some (combine_GT_vector f field_type)
  else
    let output :=
      for_upto (N.to_nat (Field.num_elements f))
        (append_element f field_type separator) (Field.Returns ""%string) in
    Some (Field.bind output (fun output =>
            Field.Returns ("[" ++ output ++ "]")%string)).

(** The text of element [i], no offset checked. *)
Definition element_text (f : Field.genomic_field_t)
    (field_type : FieldType.genomic_field_type_t) (i : N) : string :=
  if FieldType.is_int field_type then
    int_to_string (to_int32 (le_value (Field.element_bytes f 4 i)))
  else if FieldType.is_float field_type then
    float_to_string (le_value (Field.element_bytes f 4 i))
  else if FieldType.is_char field_type then
    int_to_string (char_value (Field.ptr f i))
  else ""%string.
End Text.

End FieldText.

(** *** Totals of the progress bar *)

(** Conversion to [int64_t]. *)
Definition to_int64 (z : Z) : Z := (z + 2 ^ 63) mod 2 ^ 64 - 2 ^ 63.

(** [total += a.second - a.first + 1] for an [int total] and a range
    with [int64_t] bounds (those of the query configuration, as in
    [genomicsdb_ranges_t]): the sum is formed in 64 bits and cut to 32. *)
Definition add_range_width (total : Z) (a : Z * Z) : Z :=
  to_int32 (to_int64 (total + to_int64 (to_int64 (snd a - fst a) + 1))).

(** [total_rows] and [total_cols] as the constructor leaves them, from the
    ranges of the query configuration for the rank. *)
Definition progress_total (ranges : genomicsdb_ranges_t) : Z :=
  fold_left add_range_width ranges 0.

Definition range_width (a : Z * Z) : Z := snd a - fst a + 1.

Definition total_width (ranges : genomicsdb_ranges_t) : Z :=
  fold_right (fun a sum => range_width a + sum) 0 ranges.

(** *** Rows of the BED file *)

(** One variant: a code per sample, then the flush. *)
Definition bed_row (codes : list Z) : list bed_call :=
  map Write_to_bed codes ++ [Flush_to_bed].

Definition is_byte (b : Z) : Prop := 0 <= b < 256.

(** What every run of calls keeps true of the one-byte buffer. *)
Definition bed_buffer_ok (s : plink_state) : Prop :=
  0 <= bed_buf_state s <= 3
  /\ is_byte (bed_buf s)
  /\ (bed_buf_state s = 0 -> bed_buf s = 0).

(** The second entry of a phased slot. *)
Definition allele_of (v : list Z) : Z := nth 1 v 0.

(** Every element followed by the separator. *)
Fixpoint separated (sep : string) (elements : list string) : string :=
  match elements with
  | [] => ""%string
  | e :: rest => (e ++ sep ++ separated sep rest)%string
  end.

(** * Properties *)

(** ** Scan ranges *)

(** C7, as stated, fails: in the earlier revision, the one where
    [SCAN_FULL] is also the default of the row ranges, the macro is
    [{{0, INT64_MAX}}], whose upper end is [2^63 - 1]. *)
Lemma scan_full_earlier_revision_differs : ~ scan_full_as_stated.
Proof.
  unfold scan_full_as_stated.
  intros (_ & _ & _ & Hrows & _).
  vm_compute in Hrows. discriminate Hrows.
Qed.

(** C7, amended: in the current revision [SCAN_FULL], the default of the
    column ranges of [query_variants] and [query_variant_calls], is the
    single range [[0, 2^63 - 2]]; in the earlier revision, where it is the
    default of the column and of the row ranges, it is [[0, 2^63 - 1]]. *)
Theorem scan_full_denotes :
  SCAN_FULL = [(0, 2 ^ 63 - 2)]
  /\ length SCAN_FULL = 1%nat
  /\ query_variants_column_ranges_default = [(0, 2 ^ 63 - 2)]
  /\ query_variant_calls_column_ranges_default = [(0, 2 ^ 63 - 2)]
  /\ ApiV1.SCAN_FULL = [(0, 2 ^ 63 - 1)]
  /\ ApiV1.query_variants_column_ranges_default = [(0, 2 ^ 63 - 1)]
  /\ ApiV1.query_variants_row_ranges_default = [(0, 2 ^ 63 - 1)]
  /\ ApiV1.query_variant_calls_column_ranges_default = [(0, 2 ^ 63 - 1)]
  /\ ApiV1.query_variant_calls_row_ranges_default = [(0, 2 ^ 63 - 1)].
Proof. repeat split. Qed.

(** ** Field accessors *)

Lemma check_offset_in_range (f : Field.genomic_field_t) (offset : N) :
  (offset < Field.num_elements f)%N -> Field.check_offset f offset = Field.Returns tt.
Proof.
  intros Hlt. unfold Field.check_offset.
  destruct (N.leb_spec (Field.num_elements f) offset) as [Hle | _]; [lia | reflexivity].
Qed.

Lemma check_offset_out_of_range (f : Field.genomic_field_t) (offset : N) :
  (Field.num_elements f <= offset)%N ->
  Field.check_offset f offset
  = Field.Throws (Field.Exception (Field.offset_message f offset)).
Proof.
  intros Hge. unfold Field.check_offset.
  destruct (N.leb_spec (Field.num_elements f) offset) as [_ | Hlt]; [reflexivity | lia].
Qed.

Lemma checked_access {A : Type} (f : Field.genomic_field_t) (offset : N)
    (k : unit -> Field.result A) :
  (forall u, succeeds (k u)) ->
  (succeeds (Field.bind (Field.check_offset f offset) k)
     <-> (offset < Field.num_elements f)%N)
  /\ ((Field.num_elements f <= offset)%N ->
      throws_offset_error f offset (Field.bind (Field.check_offset f offset) k)).
Proof.
  intros Hk. split; [split |].
  - intros [a Ha].
    destruct (N.lt_ge_cases offset (Field.num_elements f)) as [Hlt | Hge]; [exact Hlt |].
    rewrite (check_offset_out_of_range f offset Hge) in Ha. discriminate Ha.
  - intros Hlt. rewrite (check_offset_in_range f offset Hlt). apply Hk.
  - intros Hge. rewrite (check_offset_out_of_range f offset Hge). reflexivity.
Qed.

Example to_string_is_decimal : Field.to_string 1234 = "1234"%string.
Proof. reflexivity. Qed.

(** C8: each of [int_value_at], [float_value_at] and [char_value_at]
    returns a value exactly when [offset < num_elements]; for every
    [offset >= num_elements] it throws the [GenomicsDBException] whose
    message names the field and the offset. *)
Theorem typed_accessors_validate_offset (f : Field.genomic_field_t) (offset : N) :
  ((succeeds (Field.int_value_at f offset) <-> (offset < Field.num_elements f)%N)
   /\ ((Field.num_elements f <= offset)%N ->
       throws_offset_error f offset (Field.int_value_at f offset)))
  /\ ((succeeds (Field.float_value_at f offset) <-> (offset < Field.num_elements f)%N)
      /\ ((Field.num_elements f <= offset)%N ->
          throws_offset_error f offset (Field.float_value_at f offset)))
  /\ ((succeeds (Field.char_value_at f offset) <-> (offset < Field.num_elements f)%N)
      /\ ((Field.num_elements f <= offset)%N ->
          throws_offset_error f offset (Field.char_value_at f offset))).
Proof.
  unfold Field.int_value_at, Field.float_value_at, Field.char_value_at.
  repeat apply conj; try apply checked_access; intros u; eexists; reflexivity.
Qed.

Lemma typed_accessors_validate_offset_example :
  let f := {| Field.name := "GT"; Field.ptr := fun _ => 0; Field.num_elements := 2 |} in
  (Field.num_elements f <= 5)%N /\ throws_offset_error f 5 (Field.int_value_at f 5).
Proof.
  intros f. split; [vm_compute; discriminate |].
  apply (typed_accessors_validate_offset f 5). vm_compute; discriminate.
Defined.

(** ** Little-endian fields *)

Lemma le_bytes_4 (x : Z) :
  le_bytes 4 x
  = [x mod 256; (x / 2 ^ 8) mod 256; (x / 2 ^ 16) mod 256; (x / 2 ^ 24) mod 256].
Proof.
  cbn [le_bytes]. rewrite !Z.shiftr_shiftr by lia. rewrite !Z.shiftr_div_pow2 by lia.
  reflexivity.
Qed.

Lemma length_le_bytes (n : nat) (x : Z) : length (le_bytes n x) = n.
Proof. revert x. induction n as [| n IH]; intros x; cbn; [reflexivity | now rewrite IH]. Qed.

Lemma le_value_le_bytes_4 (x : Z) :
  0 <= x < 2 ^ 32 -> le_value (le_bytes 4 x) = x.
Proof. intros Hx. rewrite le_bytes_4. cbn [le_value]. lia. Qed.

Lemma le_bytes_4_size_t (x : Z) : le_bytes 4 (x mod 2 ^ 64) = le_bytes 4 x.
Proof.
  rewrite !le_bytes_4.
  f_equal; [| f_equal; [| f_equal; [| f_equal]]]; lia.
Qed.

(** ** Construction *)

(** The header the constructor leaves in the BGEN file, for the default
    [compression = 0]. *)
Lemma constructor_bgen_header (junk : Z * Z * Z) :
  bgen_file (GenomicsDBPlinkProcessor junk)
  = [20; 0; 0; 0;  20; 0; 0; 0;  0; 0; 0; 0;  0; 0; 0; 0;
     98; 103; 101; 110;  8; 0; 0; 128].
Proof. reflexivity. Qed.

(** C3: the constructor leaves 24 bytes in the BGEN file: the offset 20,
    the header length 20, a zero for M, a zero for N, the magic
    ['b' 'g' 'e' 'n'], and a flags word with the compression code in bits
    0-1, layout 2 in bits 2-5 and bit 31 (sample identifiers present) set. *)
Theorem constructor_writes_bgen_header (s : plink_state) :
  0 <= compression s <= 3 ->
  let bgen := bgen_file (constructor_body s) in
  let flags := le_value (drop 20 bgen) in
  length bgen = 24%nat
  /\ take 20 bgen
     = [20; 0; 0; 0;  20; 0; 0; 0;  0; 0; 0; 0;  0; 0; 0; 0]
       ++ map ascii_code ["b"; "g"; "e"; "n"]%char
  /\ le_value (take 4 bgen) = 20
  /\ le_value (take 4 (drop 4 bgen)) = 20
  /\ le_value (take 4 (drop 8 bgen)) = 0
  /\ le_value (take 4 (drop 12 bgen)) = 0
  /\ Z.land flags 3 = compression s
  /\ Z.land (Z.shiftr flags 2) 15 = 2
  /\ Z.testbit flags 31 = true
  /\ flags = 2 ^ 31 + 2 * 2 ^ 2 + compression s.
Proof.
  intros Hc. unfold constructor_body.
  assert (compression s = 0 \/ compression s = 1 \/ compression s = 2
          \/ compression s = 3) as [-> | [-> | [-> | ->]]] by lia;
    vm_compute; repeat split; reflexivity.
Qed.

Lemma constructor_writes_bgen_header_default :
  0 <= compression (member_initialisers (0, 0, 0)) <= 3
  /\ let bgen := bgen_file (GenomicsDBPlinkProcessor (0, 0, 0)) in
     let flags := le_value (drop 20 bgen) in
     length bgen = 24%nat
     /\ take 20 bgen
        = [20; 0; 0; 0;  20; 0; 0; 0;  0; 0; 0; 0;  0; 0; 0; 0]
          ++ map ascii_code ["b"; "g"; "e"; "n"]%char
     /\ le_value (take 4 bgen) = 20
     /\ le_value (take 4 (drop 4 bgen)) = 20
     /\ le_value (take 4 (drop 8 bgen)) = 0
     /\ le_value (take 4 (drop 12 bgen)) = 0
     /\ Z.land flags 3 = 0
     /\ Z.land (Z.shiftr flags 2) 15 = 2
     /\ Z.testbit flags 31 = true
     /\ flags = 2 ^ 31 + 2 * 2 ^ 2 + 0.
Proof.
  split; [vm_compute; split; discriminate |].
  apply (constructor_writes_bgen_header (member_initialisers (0, 0, 0))).
  vm_compute; split; discriminate.
Defined.

(** ** The BED stream *)

Lemma bed_step_appends (s : plink_state) (c : bed_call) :
  exists bytes, bed_file (bed_step s c) = bed_file s ++ bytes.
Proof.
  destruct c as [x |]; cbn [bed_step].
  - unfold write_to_bed.
    destruct (_ =? 0); cbn [set_bed bed_file]; [eexists; reflexivity |].
    exists []. now rewrite app_nil_r.
  - unfold flush_to_bed.
    destruct (_ =? 0); cbn [set_bed bed_file]; [| eexists; reflexivity].
    exists []. now rewrite app_nil_r.
Qed.

Lemma bed_run_appends (calls : list bed_call) (s : plink_state) :
  exists bytes, bed_file (bed_run calls s) = bed_file s ++ bytes.
Proof.
  revert s. induction calls as [| c calls IH]; intros s; cbn [bed_run fold_left].
  - exists []. now rewrite app_nil_r.
  - destruct (IH (bed_step s c)) as [later Hlater].
    destruct (bed_step_appends s c) as [first Hfirst].
    exists (first ++ later). unfold bed_run in Hlater.
    rewrite Hlater, Hfirst. now rewrite app_assoc.
Qed.

(** C9: the constructor writes the magic [0x6C 0x1B 0x01] to the BED file
    and nothing else, and whatever [write_to_bed] and [flush_to_bed] calls
    follow, the file still begins with these three bytes. *)
Theorem bed_file_begins_with_magic (junk : Z * Z * Z) (calls : list bed_call) :
  bed_file (GenomicsDBPlinkProcessor junk) = [0x6C; 0x1B; 0x01]
  /\ take 3 (bed_file (bed_run calls (GenomicsDBPlinkProcessor junk)))
     = [0x6C; 0x1B; 0x01].
Proof.
  split; [reflexivity |].
  destruct (bed_run_appends calls (GenomicsDBPlinkProcessor junk)) as [bytes ->].
  reflexivity.
Qed.

(** ** The genotype block *)

(** C2: [bgen_finish_gt] stores [min_ploidy] at index 7 and [max_ploidy]
    at index 8 of the buffered block and leaves its other bytes alone.
    With compression on it then writes, in four bytes each, the compressed
    size plus 4 and the length of the buffer, followed by the compressed
    bytes; with compression off, the length of the buffer in four bytes
    followed by the buffer.  A four-byte field holds its number exactly as
    long as the number is below [2^32]. *)
Theorem bgen_finish_gt_writes_block (compress : list Z -> list Z) (s : plink_state) :
  (8 < length (codec_buf s))%nat ->
  exists (block : list Z) s',
    bgen_finish_gt compress s = Some s'
    /\ block !! 7%nat = Some (min_ploidy s)
    /\ block !! 8%nat = Some (max_ploidy s)
    /\ (forall i, i <> 7%nat -> i <> 8%nat -> block !! i = codec_buf s !! i)
    /\ length block = length (codec_buf s)
    /\ (compression s <> 0 ->
        let total_size := Z.of_nat (length (compress block)) + 4 in
        let uncompressed_size := Z.of_nat (length block) in
        bgen_file s'
        = bgen_file s ++ le_bytes 4 total_size ++ le_bytes 4 uncompressed_size
            ++ compress block
        /\ (total_size < 2 ^ 32 -> le_value (le_bytes 4 total_size) = total_size)
        /\ (uncompressed_size < 2 ^ 32 ->
            le_value (le_bytes 4 uncompressed_size) = uncompressed_size))
    /\ (compression s = 0 ->
        let uncompressed_size := Z.of_nat (length block) in
        bgen_file s' = bgen_file s ++ le_bytes 4 uncompressed_size ++ block
        /\ (uncompressed_size < 2 ^ 32 ->
            le_value (le_bytes 4 uncompressed_size) = uncompressed_size)).
Proof.
  intros Hlen.
  exists (<[8%nat := max_ploidy s]> (<[7%nat := min_ploidy s]> (codec_buf s))).
  unfold bgen_finish_gt.
  destruct (Nat.ltb_spec 8 (length (codec_buf s))) as [_ | Hge]; [| lia].
  eexists. split; [reflexivity |].
  split.
  { rewrite list_lookup_insert_ne by lia.
    apply list_lookup_insert_eq. lia. }
  split.
  { apply list_lookup_insert_eq. rewrite length_insert. lia. }
  split.
  { intros i H7 H8. now rewrite !list_lookup_insert_ne by congruence. }
  split.
  { now rewrite !length_insert. }
  cbn [bgen_file]. split.
  - intros Hon. apply Z.eqb_neq in Hon. rewrite Hon.
    rewrite le_bytes_4_size_t. rewrite <- !app_assoc.
    split; [reflexivity |].
    split; intros Hsize; apply le_value_le_bytes_4; lia.
  - intros ->. cbn [Z.eqb]. rewrite <- !app_assoc.
    split; [reflexivity |].
    intros Hsize; apply le_value_le_bytes_4; lia.
Qed.

Lemma bgen_finish_gt_writes_block_example :
  let s := set_codec_buf [1; 0; 0; 0; 2; 0; 9; 9; 9; 2; 0; 8; 0]
             (GenomicsDBPlinkProcessor (2, 2, 0)) in
  (8 < length (codec_buf s))%nat
  /\ exists (block : list Z) s',
       bgen_finish_gt (fun b => b) s = Some s'
       /\ block !! 7%nat = Some 2
       /\ block !! 8%nat = Some 2.
Proof.
  intros s. split; [vm_compute; lia |].
  destruct (bgen_finish_gt_writes_block (fun b => b) s) as (block & s' & H & H7 & H8 & _).
  - vm_compute; lia.
  - exists block, s'. repeat split; assumption.
Defined.

(** ** BED packing *)

Lemma list_ind_by_four {A : Type} (P : list A -> Prop) :
  P [] -> (forall a, P [a]) -> (forall a b, P [a; b]) -> (forall a b c, P [a; b; c]) ->
  (forall a b c d l, P l -> P (a :: b :: c :: d :: l)) ->
  forall l, P l.
Proof.
  intros H0 H1 H2 H3 H4.
  fix IH 1.
  intros [| a [| b [| c [| d l]]]]; [exact H0 | apply H1 | apply H2 | apply H3 |].
  apply H4, IH.
Qed.

Lemma is_code_cases (c : Z) : is_code c -> c = 0 \/ c = 1 \/ c = 2 \/ c = 3.
Proof. unfold is_code. lia. Qed.

Ltac each_code H := apply is_code_cases in H; destruct H as [-> | [-> | [-> | ->]]].

Lemma set_bed_set_bed (f f' : list Z) (b b' st st' : Z) (s : plink_state) :
  set_bed f b st (set_bed f' b' st' s) = set_bed f b st s.
Proof. reflexivity. Qed.

Lemma write_to_bed_four (a b c d : Z) (s : plink_state) :
  is_code a -> is_code b -> is_code c -> is_code d ->
  bed_buf s = 0 -> bed_buf_state s = 0 ->
  write_to_bed d (write_to_bed c (write_to_bed b (write_to_bed a s)))
  = set_bed (bed_file s ++ [pack4 a b c d]) 0 0 s.
Proof.
  intros Ha Hb Hc Hd Hbuf Hstate.
  destruct s; cbn in Hbuf, Hstate; subst.
  each_code Ha; each_code Hb; each_code Hc; each_code Hd; reflexivity.
Qed.

Lemma unpack_pack4 (a b c d : Z) :
  is_code a -> is_code b -> is_code c -> is_code d ->
  bed_unpack_byte (pack4 a b c d) = [a; b; c; d].
Proof.
  intros Ha Hb Hc Hd.
  each_code Ha; each_code Hb; each_code Hc; each_code Hd; reflexivity.
Qed.

Lemma length_four_more {A : Type} (a b c d : A) (l : list A) :
  (length (a :: b :: c :: d :: l) mod 4 = length l mod 4)%nat
  /\ (length (a :: b :: c :: d :: l) / 4 = S (length l / 4))%nat
  /\ ((length (a :: b :: c :: d :: l) + 3) / 4 = S ((length l + 3) / 4))%nat.
Proof. cbn [length]. lia. Qed.

(** The state after a run of [write_to_bed] calls. *)
Lemma bed_run_write_codes (codes : list Z) :
  Forall is_code codes ->
  forall s, bed_buf s = 0 -> bed_buf_state s = 0 ->
  bed_run (map Write_to_bed codes) s
  = set_bed (bed_file s ++ bed_full codes) (bed_pending codes)
            (Z.of_nat (length codes mod 4)) s.
Proof.
  induction codes as [| a | a b | a b c | a b c d codes IH] using list_ind_by_four;
    intros Hcodes s Hbuf Hstate.
  - destruct s; cbn in Hbuf, Hstate; subst. cbn. now rewrite app_nil_r.
  - inversion_clear Hcodes as [| ? ? Ha _].
    destruct s; cbn in Hbuf, Hstate; subst. each_code Ha; cbn; now rewrite app_nil_r.
  - inversion_clear Hcodes as [| ? ? Ha Hcodes']. inversion_clear Hcodes' as [| ? ? Hb _].
    destruct s; cbn in Hbuf, Hstate; subst.
    each_code Ha; each_code Hb; cbn; now rewrite app_nil_r.
  - inversion_clear Hcodes as [| ? ? Ha Hcodes']. inversion_clear Hcodes' as [| ? ? Hb Hcodes].
    inversion_clear Hcodes as [| ? ? Hc _].
    destruct s; cbn in Hbuf, Hstate; subst.
    each_code Ha; each_code Hb; each_code Hc; cbn; now rewrite app_nil_r.
  - inversion_clear Hcodes as [| ? ? Ha Hcodes']. inversion_clear Hcodes' as [| ? ? Hb Hcodes].
    inversion_clear Hcodes as [| ? ? Hc Hcodes']. inversion_clear Hcodes' as [| ? ? Hd Hcodes].
    destruct (length_four_more a b c d codes) as (-> & _).
    cbn [map bed_run fold_left bed_step].
    rewrite write_to_bed_four by assumption.
    fold (bed_run (map Write_to_bed codes)).
    rewrite IH by (assumption || reflexivity).
    rewrite set_bed_set_bed. cbn [bed_file set_bed bed_full].
    now rewrite <- app_assoc.
Qed.

Lemma length_bed_full (codes : list Z) : length (bed_full codes) = (length codes / 4)%nat.
Proof.
  induction codes as [| a | a b | a b c | a b c d codes IH] using list_ind_by_four;
    try reflexivity.
  destruct (length_four_more a b c d codes) as (_ & -> & _).
  cbn [bed_full length]. now rewrite IH.
Qed.

Lemma bed_pack_four (a b c d : Z) (codes : list Z) :
  bed_pack (a :: b :: c :: d :: codes) = pack4 a b c d :: bed_pack codes.
Proof.
  unfold bed_pack. destruct (length_four_more a b c d codes) as (-> & _).
  reflexivity.
Qed.

Lemma length_bed_pack (codes : list Z) :
  length (bed_pack codes) = ((length codes + 3) / 4)%nat.
Proof.
  induction codes as [| a | a b | a b c | a b c d codes IH] using list_ind_by_four;
    try reflexivity.
  destruct (length_four_more a b c d codes) as (_ & _ & ->).
  rewrite bed_pack_four. cbn [length]. now rewrite IH.
Qed.

Lemma bed_unpack_pack (codes : list Z) :
  Forall is_code codes ->
  bed_unpack (bed_pack codes)
  = codes ++ replicate ((4 - length codes mod 4) mod 4) 0.
Proof.
  induction codes as [| a | a b | a b c | a b c d codes IH] using list_ind_by_four;
    intros Hcodes.
  - reflexivity.
  - inversion_clear Hcodes as [| ? ? Ha _]. each_code Ha; reflexivity.
  - inversion_clear Hcodes as [| ? ? Ha Hcodes']. inversion_clear Hcodes' as [| ? ? Hb _].
    each_code Ha; each_code Hb; reflexivity.
  - inversion_clear Hcodes as [| ? ? Ha Hcodes']. inversion_clear Hcodes' as [| ? ? Hb Hcodes].
    inversion_clear Hcodes as [| ? ? Hc _].
    each_code Ha; each_code Hb; each_code Hc; reflexivity.
  - inversion_clear Hcodes as [| ? ? Ha Hcodes']. inversion_clear Hcodes' as [| ? ? Hb Hcodes].
    inversion_clear Hcodes as [| ? ? Hc Hcodes']. inversion_clear Hcodes' as [| ? ? Hd Hcodes].
    destruct (length_four_more a b c d codes) as (-> & _).
    rewrite bed_pack_four. unfold bed_unpack. cbn [flat_map].
    fold (bed_unpack (bed_pack codes)).
    rewrite unpack_pack4, IH by assumption. reflexivity.
Qed.

(** Entry [i] of the unpacked codes is bit pair [i mod 4] of byte [i / 4]. *)
Lemma bed_unpack_lookup (bytes : list Z) (i : nat) (c : Z) :
  bed_unpack bytes !! i = Some c ->
  exists byte, bytes !! (i / 4)%nat = Some byte
               /\ bit_pair (Z.of_nat (i mod 4)) byte = c.
Proof.
  revert i. induction bytes as [| byte bytes IH]; intros i Hi; [discriminate Hi |].
  destruct (Nat.lt_ge_cases i 4) as [Hlt | Hge].
  - exists byte. replace (i / 4)%nat with 0%nat by lia. split; [reflexivity |].
    destruct i as [| [| [| [| i]]]]; [| | | | lia];
      cbn in Hi; injection Hi as <-; reflexivity.
  - replace i with (4 + (i - 4))%nat in Hi by lia.
    destruct (IH (i - 4)%nat Hi) as (byte' & Hbyte & Hpair).
    exists byte'. replace (i / 4)%nat with (S ((i - 4) / 4)) by lia.
    split; [exact Hbyte |].
    replace (i mod 4)%nat with ((i - 4) mod 4)%nat by lia. exact Hpair.
Qed.

Lemma bed_pending_none (codes : list Z) :
  (length codes mod 4 = 0)%nat -> bed_pending codes = 0.
Proof.
  induction codes as [| a | a b | a b c | a b c d codes IH] using list_ind_by_four;
    try (cbn; discriminate); [reflexivity |].
  destruct (length_four_more a b c d codes) as (-> & _). exact IH.
Qed.

(** C6: from an empty one-byte buffer, a run of [write_to_bed] calls on
    2-bit codes followed by [flush_to_bed] appends to the BED file the
    codes packed four per byte, code [i] in bit pair [i mod 4] of byte
    [i / 4].  A byte goes out at every fourth write and at no other write
    ([n / 4] bytes after [n] writes), the flush adds the trailing byte when
    [n] is no multiple of four, its unused bit pairs are zero, and
    unpacking the written bytes gives the codes back. *)
Theorem write_to_bed_packs_four_per_byte (codes : list Z) (s : plink_state) :
  bed_buf s = 0 -> bed_buf_state s = 0 -> Forall is_code codes ->
  let written := bed_run (map Write_to_bed codes) s in
  let flushed := flush_to_bed written in
  let n := length codes in
  bed_file written = bed_file s ++ bed_full codes
  /\ length (bed_full codes) = (n / 4)%nat
  /\ bed_buf_state written = Z.of_nat (n mod 4)
  /\ bed_file flushed = bed_file s ++ bed_pack codes
  /\ length (bed_pack codes) = ((n + 3) / 4)%nat
  /\ (forall i c, codes !! i = Some c ->
        exists byte, bed_pack codes !! (i / 4)%nat = Some byte
                     /\ bit_pair (Z.of_nat (i mod 4)) byte = c)
  /\ bed_unpack (bed_pack codes) = codes ++ replicate ((4 - n mod 4) mod 4) 0
  /\ take n (bed_unpack (bed_pack codes)) = codes
  /\ bed_buf flushed = 0
  /\ bed_buf_state flushed = 0.
Proof.
  intros Hbuf Hstate Hcodes written flushed n.
  assert (written
          = set_bed (bed_file s ++ bed_full codes) (bed_pending codes)
                    (Z.of_nat (n mod 4)) s) as Hwritten
    by (apply bed_run_write_codes; assumption).
  assert (bed_unpack (bed_pack codes) = codes ++ replicate ((4 - n mod 4) mod 4) 0)
    as Hunpack by (apply bed_unpack_pack; assumption).
  assert (bed_file flushed = bed_file s ++ bed_pack codes
          /\ bed_buf flushed = 0 /\ bed_buf_state flushed = 0) as (Hfile & Hb & Hst).
  { subst flushed. rewrite Hwritten. unfold flush_to_bed, bed_pack.
    cbn [set_bed bed_buf_state bed_file bed_buf]. fold n.
    destruct (Nat.eqb_spec (n mod 4) 0) as [H0 | Hn0].
    - rewrite H0, (bed_pending_none codes H0). cbn. now rewrite app_nil_r.
    - destruct (Z.eqb_spec (Z.of_nat (n mod 4)) 0) as [H0 | _]; [lia |].
      cbn. now rewrite <- app_assoc. }
  split; [now rewrite Hwritten |].
  split; [apply length_bed_full |].
  split; [now rewrite Hwritten |].
  split; [exact Hfile |].
  split; [apply length_bed_pack |].
  split.
  { intros i c Hi. apply bed_unpack_lookup. rewrite Hunpack.
    apply lookup_app_l_Some. exact Hi. }
  split; [exact Hunpack |].
  split; [rewrite Hunpack; apply take_app_length |].
  split; assumption.
Qed.

Lemma write_to_bed_packs_four_per_byte_example :
  let s := GenomicsDBPlinkProcessor (0, 0, 0) in
  let codes := [2; 1; 3; 0; 1] in
  (bed_buf s = 0 /\ bed_buf_state s = 0 /\ Forall is_code codes)
  /\ bed_file (flush_to_bed (bed_run (map Write_to_bed codes) s))
     = bed_file s ++ bed_pack codes.
Proof.
  intros s codes.
  assert (Forall is_code codes) as Hcodes
    by (repeat constructor; unfold is_code; lia).
  split; [split; [reflexivity | split; [reflexivity | exact Hcodes]] |].
  apply (write_to_bed_packs_four_per_byte codes s eq_refl eq_refl Hcodes).
Defined.

Example bed_bytes_example :
  bed_file (flush_to_bed (bed_run (map Write_to_bed [2; 1; 3; 0; 1])
                            (GenomicsDBPlinkProcessor (0, 0, 0))))
  = [0x6C; 0x1B; 0x01; 0x36; 0x01].
Proof. reflexivity. Qed.

(** ** Phased slots *)

Lemma fold_record_call (calls acc : list (list Z * Z)) :
  fold_left (apply_call record_call) calls acc = acc ++ calls.
Proof.
  revert acc. induction calls as [| c calls IH]; intros acc; cbn [fold_left].
  - now rewrite app_nil_r.
  - rewrite IH. unfold apply_call, record_call. destruct c as [v i]; cbn.
    now rewrite <- app_assoc.
Qed.

Lemma flat_map_seq_S {A : Type} (f : nat -> list A) (m : nat) :
  flat_map f (seq 0 (S m)) = flat_map f (seq 0 m) ++ f m.
Proof. rewrite seq_S, flat_map_app. cbn. now rewrite app_nil_r. Qed.

Lemma for_upto_S {A : Type} (m : nat) (body : Z -> A -> A) (a : A) :
  for_upto (S m) body a = body (Z.of_nat m) (for_upto m body a).
Proof. reflexivity. Qed.

Section Phased.
Context {St : Type} (callback : @callback_t St).

(** The inner loop, over the alleles of haplotype [i]. *)
Lemma phased_inner_loop (i : Z) (limit : nat) (ind : Z) (st : St) :
  for_upto limit (fun j '(ind, st) =>
      let ind := ind + 1 in (ind, callback [i; j] ind st)) (ind, st)
  = (ind + Z.of_nat limit,
     fold_left (apply_call callback)
       (map (fun j => ([i; Z.of_nat j], ind + 1 + Z.of_nat j)) (seq 0 limit)) st).
Proof.
  induction limit as [| m IH].
  - cbn. f_equal. lia.
  - rewrite for_upto_S, IH, seq_S, map_app, fold_left_app. cbn [map fold_left Nat.add].
    unfold apply_call. cbn [fst snd]. f_equal; [lia | f_equal; lia].
Qed.

Lemma phased_outer_loop (ploidy limit : nat) (ind : Z) (st : St) :
  for_upto ploidy (fun i =>
      for_upto limit (fun j '(ind, st) =>
        let ind := ind + 1 in (ind, callback [i; j] ind st))) (ind, st)
  = (ind + Z.of_nat (ploidy * limit),
     fold_left (apply_call callback) (indexed_slots (ind + 1) ploidy limit) st).
Proof.
  induction ploidy as [| p IH].
  - cbn. f_equal. lia.
  - rewrite for_upto_S, IH, phased_inner_loop. unfold indexed_slots.
    rewrite flat_map_seq_S, fold_left_app. f_equal; [lia |].
    f_equal. apply map_ext. intros j. f_equal. lia.
Qed.

Lemma bgen_enumerate_phased_slots (ploidy alleles : Z) (drop_last : bool) (st : St) :
  bgen_enumerate_phased ploidy alleles callback drop_last st
  = fold_left (apply_call callback)
      (indexed_slots 0 (Z.to_nat ploidy) (Z.to_nat (alleles - Z.b2z drop_last))) st.
Proof. unfold bgen_enumerate_phased. now rewrite phased_outer_loop. Qed.
End Phased.

Lemma phased_calls_slots (ploidy alleles : Z) (drop_last : bool) :
  phased_calls ploidy alleles drop_last
  = indexed_slots 0 (Z.to_nat ploidy) (Z.to_nat (alleles - Z.b2z drop_last)).
Proof.
  unfold phased_calls. now rewrite bgen_enumerate_phased_slots, fold_record_call.
Qed.

Lemma length_indexed_slots (first : Z) (ploidy limit : nat) :
  length (indexed_slots first ploidy limit) = (ploidy * limit)%nat.
Proof.
  unfold indexed_slots. induction ploidy as [| p IH]; [reflexivity |].
  rewrite flat_map_seq_S, length_app, IH, length_map, length_seq. lia.
Qed.

Lemma indexed_slots_vectors (first : Z) (ploidy limit : nat) :
  map fst (indexed_slots first ploidy limit) = haplotype_slots ploidy limit.
Proof.
  unfold indexed_slots, haplotype_slots. induction ploidy as [| p IH]; [reflexivity |].
  rewrite !flat_map_seq_S, map_app, IH. f_equal.
  rewrite map_map. reflexivity.
Qed.

Lemma map_seq_from {A : Type} (f : nat -> A) (n start : nat) :
  map (fun j => f (start + j)%nat) (seq 0 n) = map f (seq start n).
Proof.
  revert start. induction n as [| n IH]; intros start; [reflexivity |].
  cbn [seq map]. rewrite Nat.add_0_r. f_equal.
  rewrite <- seq_shift, map_map, <- IH.
  apply map_ext. intros j. f_equal. lia.
Qed.

Lemma indexed_slots_indices (first : Z) (ploidy limit : nat) :
  map snd (indexed_slots first ploidy limit)
  = map (fun k => first + Z.of_nat k) (seq 0 (ploidy * limit)).
Proof.
  unfold indexed_slots. induction ploidy as [| p IH]; [reflexivity |].
  rewrite flat_map_seq_S, map_app, IH.
  replace (S p * limit)%nat with (p * limit + limit)%nat by lia.
  rewrite seq_app, map_app. f_equal.
  rewrite map_map. cbn [snd Nat.add].
  apply (map_seq_from (fun k => first + Z.of_nat k)).
Qed.

Lemma in_haplotype_slots (ploidy limit : nat) (v : list Z) :
  In v (haplotype_slots ploidy limit)
  <-> exists i j, v = [i; j] /\ 0 <= i < Z.of_nat ploidy /\ 0 <= j < Z.of_nat limit.
Proof.
  unfold haplotype_slots. rewrite in_flat_map. split.
  - intros (i & Hi & Hv). apply in_map_iff in Hv as (j & <- & Hj).
    apply in_seq in Hi, Hj. exists (Z.of_nat i), (Z.of_nat j). repeat split; lia.
  - intros (i & j & -> & Hi & Hj). exists (Z.to_nat i). split; [apply in_seq; lia |].
    apply in_map_iff. exists (Z.to_nat j). split; [| apply in_seq; lia].
    f_equal; [lia | f_equal; lia].
Qed.

Lemma NoDup_haplotype_slots (ploidy limit : nat) : NoDup (haplotype_slots ploidy limit).
Proof.
  induction ploidy as [| p IH]; [constructor |].
  unfold haplotype_slots. rewrite flat_map_seq_S. fold (haplotype_slots p limit).
  apply NoDup_app. split; [exact IH | split].
  - intros v Hv Hblock. apply list_elem_of_In in Hv, Hblock.
    apply in_haplotype_slots in Hv as (i & j & -> & Hi & _).
    apply in_map_iff in Hblock as (j' & Heq & _).
    injection Heq as Hp _. lia.
  - apply (NoDup_fmap_2_strong (fun j => [Z.of_nat p; Z.of_nat j])); [| apply NoDup_seq].
    intros j j' _ _ Heq. injection Heq as Hj. lia.
Qed.

(** C4: for a ploidy [P >= 0] and [K >= 1] alleles, [bgen_enumerate_phased]
    with [drop_last] runs its callback [P * (K - 1)] times: once for each
    pair (haplotype [i], allele [j]) with [0 <= i < P] and [0 <= j < K - 1],
    the haplotype in the outer loop, so that allele [K - 1] of every
    haplotype is left out. *)
Theorem bgen_enumerate_phased_slots_visited (ploidy alleles : Z) :
  0 <= ploidy -> 1 <= alleles ->
  let calls := phased_calls ploidy alleles true in
  Z.of_nat (length calls) = ploidy * (alleles - 1)
  /\ map fst calls = haplotype_slots (Z.to_nat ploidy) (Z.to_nat (alleles - 1))
  /\ (forall v, In v (map fst calls) <->
        exists i j, v = [i; j] /\ 0 <= i < ploidy /\ 0 <= j < alleles - 1)
  /\ NoDup (map fst calls)
  /\ (forall (St : Type) (callback : @callback_t St) (st : St),
        bgen_enumerate_phased ploidy alleles callback true st
        = fold_left (apply_call callback) calls st).
Proof.
  intros HP HK calls.
  assert (calls = indexed_slots 0 (Z.to_nat ploidy) (Z.to_nat (alleles - 1)))
    as Hcalls by apply phased_calls_slots.
  rewrite Hcalls, indexed_slots_vectors, length_indexed_slots.
  split; [rewrite Nat2Z.inj_mul, !Z2Nat.id by lia; reflexivity |].
  split; [reflexivity |]. split.
  { intros v. rewrite in_haplotype_slots.
    split; intros (i & j & -> & Hi & Hj); exists i, j; repeat split; lia. }
  split; [apply NoDup_haplotype_slots |].
  intros St callback st. apply bgen_enumerate_phased_slots.
Qed.

Lemma bgen_enumerate_phased_slots_visited_example :
  (0 <= 2 /\ 1 <= 3)
  /\ map fst (phased_calls 2 3 true) = haplotype_slots 2 2.
Proof.
  split; [lia |].
  apply (bgen_enumerate_phased_slots_visited 2 3); lia.
Defined.

Example phased_calls_example :
  phased_calls 2 3 true = [([0; 0], 0); ([0; 1], 1); ([1; 0], 2); ([1; 1], 3)].
Proof. reflexivity. Qed.

(** The running index stays below the number of callbacks. *)
Lemma phased_calls_index_range (ploidy alleles : Z) (drop_last : bool) (call : list Z * Z) :
  In call (phased_calls ploidy alleles drop_last) ->
  0 <= snd call < Z.of_nat (length (phased_calls ploidy alleles drop_last)).
Proof.
  intros Hcall. apply (in_map snd) in Hcall.
  rewrite phased_calls_slots in *. rewrite indexed_slots_indices in Hcall.
  rewrite length_indexed_slots.
  apply in_map_iff in Hcall as (k & <- & Hk). apply in_seq in Hk. lia.
Qed.

(** ** Unphased slots: what the recursive lambda does *)

Lemma drop_insert_here {A : Type} (l : list A) (i : nat) (x : A) :
  (i < length l)%nat -> drop i (<[i := x]> l) = x :: drop (S i) l.
Proof.
  revert i. induction l as [| a l IH]; intros i Hi; cbn in Hi; [lia |].
  destruct i as [| i]; [reflexivity |]. cbn. apply IH. lia.
Qed.

Section Unphased.
Context {St : Type}.
Variables (ploidy alleles : Z) (drop_last : bool).
Variables (callback : @callback_t St) (ind : Z).

Local Abbreviation enumerate :=
  (enumerate_unphased ploidy alleles drop_last callback ind).
Local Abbreviation runs := (level_runs ploidy alleles drop_last callback ind).

Lemma enumerate_unphased_S (depth' : nat) (used : Z) (env : list Z * St) :
  enumerate (S depth') used env
  = for_upto
      (Z.to_nat (ploidy - used
                 - Z.b2z ((Z.of_nat (S depth') =? alleles - 1) && drop_last) + 1))
      (fun i env => enumerate depth' (used + i) (<[S depth' := i]> (fst env), snd env))
      env.
Proof. reflexivity. Qed.

(** The first [m] rounds of the loop at depth [depth' + 1]. *)
Lemma enumerate_unphased_loop (depth' : nat) :
  runs depth' ->
  forall (used : Z) (n : nat) (allele_counts : list Z) (st : St) (m : nat),
    Z.of_nat n = ploidy - used ->
    (S depth' < length allele_counts)%nat ->
    (m <= S n)%nat ->
    exists allele_counts',
      for_upto m
        (fun i env => enumerate depth' (used + i) (<[S depth' := i]> (fst env), snd env))
        (allele_counts, st)
      = (allele_counts',
         fold_left (apply_call callback)
           (map (fun v => (v ++ drop (S (S depth')) allele_counts, ind))
                (count_vectors_upto (S depth') n m))
           st)
      /\ length allele_counts' = length allele_counts
      /\ drop (S (S depth')) allele_counts' = drop (S (S depth')) allele_counts.
Proof.
  intros Hbelow used n ac st m Hn Hlen.
  induction m as [| m IH]; intros Hm.
  - exists ac. repeat split.
  - destruct IH as (ac1 & Hloop & Hlen1 & Hdrop1); [lia |].
    rewrite for_upto_S, Hloop. cbn [fst snd].
    destruct (Hbelow (used + Z.of_nat m) (n - m)%nat
                (<[S depth' := Z.of_nat m]> ac1)
                (fold_left (apply_call callback)
                   (map (fun v => (v ++ drop (S (S depth')) ac, ind))
                        (count_vectors_upto (S depth') n m)) st))
      as (ac2 & Hcall & Hlen2 & Hdrop2).
    { lia. }
    { rewrite length_insert. lia. }
    rewrite length_insert in Hlen2.
    rewrite drop_insert_here in Hcall, Hdrop2 by lia.
    exists ac2. split; [| split].
    + rewrite Hcall. f_equal.
      unfold count_vectors_upto. rewrite flat_map_seq_S, map_app, fold_left_app.
      f_equal. rewrite map_map. apply map_ext. intros v.
      now rewrite Hdrop1, <- app_assoc.
    + lia.
    + rewrite <- Hdrop1.
      replace (drop (S (S depth')) ac2) with (drop 1 (drop (S depth') ac2))
        by (rewrite drop_drop; f_equal; lia).
      now rewrite Hdrop2.
Qed.

(** Below the top level, or when nothing is dropped, every level runs
    through all its count vectors. *)
Lemma enumerate_unphased_level (depth : nat) :
  Z.of_nat depth < alleles - 1 \/ drop_last = false -> runs depth.
Proof.
  induction depth as [| depth' IH]; intros Hflag used n ac st Hn Hlen.
  - destruct ac as [| a ac]; [cbn in Hlen; lia |].
    exists (Z.of_nat n :: ac). cbn. rewrite <- Hn. repeat split.
  - assert ((Z.of_nat (S depth') =? alleles - 1) && drop_last = false) as Hoff.
    { destruct Hflag as [Hlt | ->]; [| apply andb_false_r].
      destruct (Z.eqb_spec (Z.of_nat (S depth')) (alleles - 1)); [lia | reflexivity]. }
    rewrite enumerate_unphased_S, Hoff. cbn [Z.b2z].
    replace (Z.to_nat (ploidy - used - 0 + 1)) with (S n) by lia.
    apply enumerate_unphased_loop; [| assumption | assumption | lia].
    apply IH. destruct Hflag as [Hlt | ->]; [left; lia | right; reflexivity].
Qed.
End Unphased.

Lemma bgen_enumerate_unphased_vectors {St : Type} (ploidy alleles : Z)
    (callback : @callback_t St) (drop_last : bool) (st : St) :
  0 <= ploidy -> 1 <= alleles ->
  bgen_enumerate_unphased ploidy alleles callback drop_last st
  = Some (fold_left (apply_call callback)
            (map (fun v => (v, -1)) (unphased_vectors ploidy alleles drop_last)) st).
Proof.
  intros HP HK. unfold bgen_enumerate_unphased, unphased_vectors.
  destruct (Z.ltb_spec alleles 1) as [Hlt | _]; [lia |]. f_equal.
  destruct (Z.to_nat (alleles - 1)) as [| depth'] eqn:Hdepth.
  - replace alleles with 1 by lia. cbn. now rewrite Z.sub_0_r.
  - rewrite enumerate_unphased_S.
    replace (Z.of_nat (S depth') =? alleles - 1) with true
      by (symmetry; apply Z.eqb_eq; lia).
    cbn [andb].
    replace (ploidy - 0 - Z.b2z drop_last + 1) with (ploidy + 1 - Z.b2z drop_last) by lia.
    destruct (enumerate_unphased_loop ploidy alleles drop_last callback (-1) depth'
                (enumerate_unphased_level ploidy alleles drop_last callback (-1) depth'
                   ltac:(left; lia))
                0 (Z.to_nat ploidy) (replicate (Z.to_nat alleles) 0) st
                (Z.to_nat (ploidy + 1 - Z.b2z drop_last)))
      as (ac' & Hloop & _).
    { lia. }
    { rewrite length_replicate. lia. }
    { destruct drop_last; cbn [Z.b2z]; lia. }
    rewrite Hloop. cbn [snd]. f_equal. apply map_ext. intros v.
    rewrite drop_ge by (rewrite length_replicate; lia).
    now rewrite app_nil_r.
Qed.

Lemma unphased_calls_vectors (ploidy alleles : Z) (drop_last : bool) :
  0 <= ploidy -> 1 <= alleles ->
  unphased_calls ploidy alleles drop_last
  = Some (map (fun v => (v, -1)) (unphased_vectors ploidy alleles drop_last)).
Proof.
  intros HP HK. unfold unphased_calls.
  now rewrite bgen_enumerate_unphased_vectors, fold_record_call by assumption.
Qed.

(** ** Binomial coefficients *)

Lemma binom_above (n k : nat) : (n < k)%nat -> binom n k = 0%nat.
Proof.
  revert k. induction n as [| n IH]; intros [| k] Hlt; try lia; [reflexivity |].
  cbn [binom]. rewrite !IH by lia. reflexivity.
Qed.

Lemma binom_0_r (n : nat) : binom n 0 = 1%nat.
Proof. destruct n; reflexivity. Qed.

Lemma binom_diag (n : nat) : binom n n = 1%nat.
Proof.
  induction n as [| n IH]; [reflexivity |].
  cbn [binom]. rewrite IH, binom_above by lia. reflexivity.
Qed.

Lemma binom_pascal (n k : nat) :
  binom (S n) (S k) = (binom n k + binom n (S k))%nat.
Proof. reflexivity. Qed.

(** [binom n k] is [n! / (k! (n-k)!)]. *)
Lemma binom_factorial (n k : nat) :
  (k <= n)%nat -> (binom n k * (fact k * fact (n - k)) = fact n)%nat.
Proof.
  revert k. induction n as [| n IH]; intros k Hk.
  - replace k with 0%nat by lia. reflexivity.
  - destruct k as [| k]; [cbn [binom fact Nat.sub]; lia |].
    destruct (Nat.eq_dec k n) as [-> | Hne].
    + rewrite binom_diag, Nat.sub_diag. cbn [fact]. lia.
    + rewrite binom_pascal. cbn [Nat.sub].
      pose proof (IH k ltac:(lia)) as H1.
      pose proof (IH (S k) ltac:(lia)) as H2.
      replace (n - k)%nat with (S (n - S k)) in * by lia.
      change (fact (S n)) with (S n * fact n)%nat.
      change (fact (S k)) with (S k * fact k)%nat in *.
      change (fact (S (n - S k))) with (S (n - S k) * fact (n - S k))%nat in *.
      replace (S n) with (S k + S (n - S k))%nat at 1 by lia.
      generalize dependent (binom n k). generalize dependent (binom n (S k)).
      generalize (fact k), (fact n), (n - S k)%nat.
      intros fk F d b H2 a H1. generalize dependent (fact d). intros fd H2 H1.
      transitivity (S k * (a * (fk * (S d * fd))) + S d * (b * (S k * fk * fd)))%nat;
        [lia | rewrite H1, H2; lia].
Qed.

(** ** Count vectors *)

Lemma count_vectors_SS (k n : nat) :
  count_vectors (S (S k)) n = count_vectors_upto (S k) n (S n).
Proof. reflexivity. Qed.

Lemma count_vectors_upto_S (k n m : nat) :
  count_vectors_upto k n (S m)
  = count_vectors_upto k n m
    ++ map (fun v => v ++ [Z.of_nat m]) (count_vectors k (n - m)).
Proof.
  exact (flat_map_seq_S
           (fun i => map (fun v => v ++ [Z.of_nat i]) (count_vectors k (n - i))) m).
Qed.

Lemma count_vectors_zero (k : nat) : count_vectors (S k) 0 = [replicate (S k) 0].
Proof.
  induction k as [| k IH]; [reflexivity |].
  rewrite count_vectors_SS, count_vectors_upto_S. cbn [count_vectors_upto seq flat_map].
  cbn [Nat.sub app]. rewrite IH. cbn [map].
  now rewrite (replicate_S_end (S k)).
Qed.

(** The last count vector is [(0, ..., 0, n)]. *)
Lemma count_vectors_last (k n : nat) :
  count_vectors (S (S k)) n
  = count_vectors_upto (S k) n n ++ [last_vector (Z.of_nat n) (S (S k))].
Proof.
  rewrite count_vectors_SS, count_vectors_upto_S, Nat.sub_diag, count_vectors_zero.
  reflexivity.
Qed.

Lemma length_count_vectors_upto (k n m : nat) :
  (forall j, length (count_vectors (S k) j) = binom (j + k) k) ->
  (m <= n)%nat ->
  (length (count_vectors_upto (S k) n m) + binom (n - m + S k) (S k)
   = binom (n + S k) (S k))%nat.
Proof.
  intros Hk. induction m as [| m IH]; intros Hm.
  - rewrite Nat.sub_0_r. reflexivity.
  - rewrite count_vectors_upto_S, length_app, length_map, Hk.
    rewrite <- IH by lia.
    replace (n - m + S k)%nat with (S (n - m + k)) by lia.
    rewrite binom_pascal.
    replace (n - S m + S k)%nat with (n - m + k)%nat by lia.
    lia.
Qed.

Lemma length_count_vectors (k n : nat) :
  length (count_vectors (S k) n) = binom (n + k) k.
Proof.
  revert n. induction k as [| k IH]; intros n.
  - now rewrite binom_0_r.
  - rewrite count_vectors_last, length_app. cbn [length].
    pose proof (length_count_vectors_upto k n n IH (Nat.le_refl n)) as Hlen.
    rewrite Nat.sub_diag, binom_diag in Hlen. lia.
Qed.

(** *** Which vectors are listed *)

Lemma vector_sum_cons (a : Z) (v : list Z) : vector_sum (a :: v) = a + vector_sum v.
Proof. reflexivity. Qed.

Lemma vector_sum_app (u w : list Z) : vector_sum (u ++ w) = vector_sum u + vector_sum w.
Proof.
  induction u as [| a u IH]; [reflexivity |].
  cbn [app]. rewrite !vector_sum_cons, IH. lia.
Qed.

Lemma vector_sum_nonneg (v : list Z) : Forall (fun a => 0 <= a) v -> 0 <= vector_sum v.
Proof.
  induction 1 as [| a v Ha _ IH]; [reflexivity |]. rewrite vector_sum_cons. lia.
Qed.

Lemma in_count_vectors_upto (k n m : nat) (v : list Z) :
  In v (count_vectors_upto k n m)
  <-> exists u i, v = u ++ [Z.of_nat i] /\ (i < m)%nat /\ In u (count_vectors k (n - i)).
Proof.
  unfold count_vectors_upto. rewrite in_flat_map. split.
  - intros (i & Hi & Hv). apply in_map_iff in Hv as (u & <- & Hu).
    apply in_seq in Hi. exists u, i. repeat split; [lia | exact Hu].
  - intros (u & i & -> & Hi & Hu). exists i. split; [apply in_seq; lia |].
    apply in_map_iff. exists u. split; [reflexivity | exact Hu].
Qed.

Lemma in_count_vectors (k n : nat) (v : list Z) :
  In v (count_vectors (S k) n) <-> is_count_vector (Z.of_nat n) (S k) v.
Proof.
  revert n v. induction k as [| k IH]; intros n v.
  - cbn [count_vectors In]. unfold is_count_vector. split.
    + intros [<- | []]. repeat split; [| cbn; lia].
      constructor; [lia | constructor].
    + intros (Hlen & _ & Hsum).
      destruct v as [| a [| b v]]; try discriminate Hlen.
      cbn in Hsum. left. f_equal. lia.
  - rewrite count_vectors_SS, in_count_vectors_upto. split.
    + intros (u & i & -> & Hi & Hu). apply IH in Hu as (Hlen & Hpos & Hsum).
      split; [rewrite length_app; cbn; lia |]. split.
      * apply Forall_app. split; [exact Hpos |]. constructor; [lia | constructor].
      * rewrite vector_sum_app. cbn. lia.
    + intros (Hlen & Hpos & Hsum).
      destruct v as [| a v _] using rev_ind; [discriminate Hlen |].
      rewrite length_app in Hlen. cbn in Hlen.
      apply Forall_app in Hpos as [Hpos Ha]. inversion_clear Ha as [| ? ? Ha' _].
      rewrite vector_sum_app in Hsum. cbn in Hsum.
      pose proof (vector_sum_nonneg v Hpos) as Hv.
      exists v, (Z.to_nat a). split; [f_equal; f_equal; lia |]. split; [lia |].
      apply IH. split; [lia |]. split; [exact Hpos | lia].
Qed.

(** *** In which order *)

Lemma lex_lt_irrefl (v : list Z) : ~ lex_lt v v.
Proof. induction v as [| a v IH]; cbn; [tauto | intros [Hlt | [_ Hv]]]; [lia | tauto]. Qed.

Lemma upper_counts_snoc (u : list Z) (a : Z) :
  u <> [] -> upper_counts (u ++ [a]) = a :: upper_counts u.
Proof.
  intros Hu. destruct u as [| b u]; [contradiction |].
  unfold upper_counts. cbn [app tail]. now rewrite rev_unit.
Qed.

Lemma loop_order_irrefl (v : list Z) : ~ loop_order v v.
Proof. apply lex_lt_irrefl. Qed.

(** Appending the same count to two vectors keeps their order. *)
Lemma loop_order_snoc (a : Z) (u w : list Z) :
  loop_order u w -> loop_order (u ++ [a]) (w ++ [a]).
Proof.
  unfold loop_order. intros Huw.
  destruct w as [| y w]; [destruct (upper_counts u); contradiction |].
  rewrite (upper_counts_snoc (y :: w)) by discriminate.
  destruct u as [| x u]; [exact I |].
  rewrite (upper_counts_snoc (x :: u)) by discriminate.
  right. split; [reflexivity | exact Huw].
Qed.

(** A smaller last count comes first. *)
Lemma loop_order_last (a b : Z) (u w : list Z) :
  u <> [] -> w <> [] -> a < b -> loop_order (u ++ [a]) (w ++ [b]).
Proof.
  intros Hu Hw Hab. unfold loop_order.
  rewrite !upper_counts_snoc by assumption. left. exact Hab.
Qed.

Lemma count_vectors_nonempty_entries (k n : nat) (v : list Z) :
  In v (count_vectors (S k) n) -> v <> [].
Proof. intros Hv%in_count_vectors. destruct Hv as [Hlen _]. now destruct v. Qed.

Lemma sorted_count_vectors_upto (k n m : nat) :
  (forall j, StronglySorted loop_order (count_vectors (S k) j)) ->
  StronglySorted loop_order (count_vectors_upto (S k) n m).
Proof.
  intros Hk. induction m as [| m IH]; [constructor |].
  rewrite count_vectors_upto_S. apply StronglySorted_app_2; [| exact IH |].
  - intros x1 x2 Hx1%list_elem_of_In Hx2%list_elem_of_In.
    apply in_count_vectors_upto in Hx1 as (u & i & -> & Hi & Hu).
    apply in_map_iff in Hx2 as (w & <- & Hw).
    apply loop_order_last; [| | lia]; eapply count_vectors_nonempty_entries; eassumption.
  - apply (StronglySorted_fmap (fun v => v ++ [Z.of_nat m]) loop_order loop_order);
      [apply loop_order_snoc | apply Hk].
Qed.

Lemma sorted_count_vectors (k n : nat) :
  StronglySorted loop_order (count_vectors (S k) n).
Proof.
  revert n. induction k as [| k IH]; intros n.
  - repeat constructor.
  - rewrite count_vectors_SS. apply sorted_count_vectors_upto, IH.
Qed.

(** ** Unphased slots: the calls made *)

Lemma unphased_vectors_dropping_last (ploidy alleles : Z) :
  0 <= ploidy -> 2 <= alleles ->
  exists k n,
    Z.to_nat alleles = S (S k) /\ Z.of_nat n = ploidy
    /\ unphased_vectors ploidy alleles true = count_vectors_upto (S k) n n
    /\ count_vectors (S (S k)) n
       = unphased_vectors ploidy alleles true
         ++ [last_vector ploidy (Z.to_nat alleles)].
Proof.
  intros HP HK. exists (Z.to_nat (alleles - 2)), (Z.to_nat ploidy).
  assert (Z.to_nat (alleles - 1) = S (Z.to_nat (alleles - 2))) as Hdepth by lia.
  assert (Z.to_nat alleles = S (S (Z.to_nat (alleles - 2)))) as Halleles by lia.
  assert (unphased_vectors ploidy alleles true
          = count_vectors_upto (S (Z.to_nat (alleles - 2))) (Z.to_nat ploidy)
              (Z.to_nat ploidy)) as Hvectors.
  { unfold unphased_vectors. rewrite Hdepth. cbn [Z.b2z]. do 2 f_equal. lia. }
  split; [exact Halleles |]. split; [lia |]. split; [exact Hvectors |].
  rewrite count_vectors_last, Hvectors, Halleles. do 3 f_equal. lia.
Qed.

Lemma map_fst_with_index (vectors : list (list Z)) (ind : Z) :
  map fst (map (fun v => (v, ind)) vectors) = vectors.
Proof. rewrite map_map. cbn. apply map_id. Qed.

(** C1, amended.  For a ploidy [P >= 1] and [K >= 2] alleles,
    [bgen_enumerate_unphased] with [drop_last] runs its callback
    [C(P+K-1, K-1) - 1] times: once for each vector [(a_1, ..., a_K)] of
    non-negative counts with sum [P] other than [(0, ..., 0, P)], in
    lexicographic order on [(a_K, ..., a_2)], so that [a_K] is the counter
    of the outermost loop and [a_2] of the innermost; [(0, ..., 0, P)],
    which is left out, would come after all of them. *)
Theorem bgen_enumerate_unphased_in_loop_order (ploidy alleles : Z) :
  1 <= ploidy -> 2 <= alleles -> unphased_in_loop_order ploidy alleles.
Proof.
  intros HP HK. unfold unphased_in_loop_order.
  destruct (unphased_vectors_dropping_last ploidy alleles) as (k & n & HK' & Hn & Hupto & Hall);
    [lia | lia |].
  exists (map (fun v => (v, -1)) (unphased_vectors ploidy alleles true)).
  pose proof (sorted_count_vectors (S k) n) as Hsorted.
  rewrite Hall in Hsorted. apply StronglySorted_app in Hsorted as (Hlast & Hsorted & _).
  assert (forall v, In v (unphased_vectors ploidy alleles true) ->
                    loop_order v (last_vector ploidy (Z.to_nat alleles))) as Hbefore.
  { intros v Hv. apply Hlast; [now apply list_elem_of_In | apply list_elem_of_here]. }
  rewrite map_fst_with_index, length_map.
  split; [apply unphased_calls_vectors; lia |]. split.
  { pose proof (length_count_vectors_upto k n n (length_count_vectors k) (Nat.le_refl n))
      as Hlen.
    rewrite Nat.sub_diag, binom_diag in Hlen. rewrite Hupto.
    replace (Z.to_nat (ploidy + alleles - 1)) with (n + S k)%nat by lia.
    replace (Z.to_nat (alleles - 1)) with (S k) by lia. lia. }
  split.
  { intros v.
    assert (is_count_vector ploidy (Z.to_nat alleles) v
            <-> In v (unphased_vectors ploidy alleles true
                      ++ [last_vector ploidy (Z.to_nat alleles)])) as Hiff.
    { rewrite <- Hall, HK', <- Hn. symmetry. apply in_count_vectors. }
    rewrite Hiff, in_app_iff. cbn [In]. split.
    - intros Hv. split; [left; exact Hv |].
      intros ->. exact (loop_order_irrefl _ (Hbefore _ Hv)).
    - intros [[Hv | [Hv | []]] Hne]; [exact Hv | congruence]. }
  split; [exact Hsorted |]. split; [exact Hbefore |].
  intros St callback st. apply bgen_enumerate_unphased_vectors; lia.
Qed.

Lemma bgen_enumerate_unphased_in_loop_order_example :
  (1 <= 2 /\ 2 <= 3) /\ unphased_in_loop_order 2 3.
Proof.
  split; [lia |]. apply (bgen_enumerate_unphased_in_loop_order 2 3); lia.
Defined.

Example unphased_calls_example :
  unphased_calls 2 3 true
  = Some [([2; 0; 0], -1); ([1; 1; 0], -1); ([0; 2; 0], -1);
          ([1; 0; 1], -1); ([0; 1; 1], -1)].
Proof. reflexivity. Qed.

Example unphased_calls_single_allele : unphased_calls 1 1 true = Some [([1], -1)].
Proof. reflexivity. Qed.

(** C1, as stated, fails.  For [P = 2], [K = 3] the callback sees
    [(0,2,0)] before [(1,0,1)]: the third count is that of the outermost
    loop, not of the innermost, and the calls are not in colex order on
    [(a_3, a_2)].  For [K = 1] the callback runs once, on [(P)], where
    [C(P, 0) - 1 = 0] calls are stated. *)
Lemma unphased_not_as_stated : ~ unphased_as_stated 2 3 /\ ~ unphased_as_stated 1 1.
Proof.
  split.
  - intros (calls & Hcalls & _ & _ & Hsorted).
    rewrite unphased_calls_example in Hcalls. injection Hcalls as <-.
    cbn [map fst] in Hsorted.
    do 2 apply StronglySorted_inv in Hsorted as [Hsorted _].
    apply StronglySorted_inv in Hsorted as [_ Hlater].
    apply Forall_inv in Hlater. vm_compute in Hlater.
    destruct Hlater as [Hlt | [Heq _]]; discriminate.
  - intros (calls & Hcalls & Hlen & _).
    rewrite unphased_calls_single_allele in Hcalls. injection Hcalls as <-.
    vm_compute in Hlen. discriminate Hlen.
Qed.

(** ** The slot index *)

Lemma count_vectors_upto_nonempty (k n m : nat) :
  count_vectors k n <> [] -> (0 < m)%nat -> count_vectors_upto k n m <> [].
Proof.
  intros Hk Hm. destruct m as [| m]; [lia |].
  unfold count_vectors_upto. cbn [seq flat_map]. rewrite Nat.sub_0_r.
  destruct (count_vectors k n); [contradiction | discriminate].
Qed.

Lemma count_vectors_nonempty (k n : nat) : count_vectors (S k) n <> [].
Proof.
  revert n. induction k as [| k IH]; intros n; [discriminate |].
  rewrite count_vectors_SS. apply count_vectors_upto_nonempty; [apply IH | lia].
Qed.

Lemma unphased_vectors_nonempty (ploidy alleles : Z) (drop_last : bool) :
  1 <= ploidy -> 1 <= alleles -> unphased_vectors ploidy alleles drop_last <> [].
Proof.
  intros HP HK. unfold unphased_vectors.
  destruct (Z.to_nat (alleles - 1)) as [| depth']; [discriminate |].
  apply count_vectors_upto_nonempty; [apply count_vectors_nonempty |].
  destruct drop_last; cbn [Z.b2z]; lia.
Qed.

(** C10: for a ploidy [P >= 1] and [K >= 2] alleles, every call that
    [bgen_enumerate_unphased] makes to its callback, and there is one,
    passes -1 as the slot index, whereas the calls [bgen_enumerate_phased]
    makes pass 0, 1, 2, ... in the order they are made. *)
Theorem slot_index_passed_to_callback (ploidy alleles : Z) (drop_last : bool) :
  1 <= ploidy -> 2 <= alleles ->
  (exists calls,
      unphased_calls ploidy alleles drop_last = Some calls
      /\ calls <> []
      /\ forall call, In call calls -> snd call = -1)
  /\ phased_calls ploidy alleles drop_last <> []
  /\ map snd (phased_calls ploidy alleles drop_last)
     = map Z.of_nat (seq 0 (length (phased_calls ploidy alleles drop_last))).
Proof.
  intros HP HK. split.
  - exists (map (fun v => (v, -1)) (unphased_vectors ploidy alleles drop_last)).
    split; [apply unphased_calls_vectors; lia |]. split.
    + intros Hnil. apply map_eq_nil in Hnil.
      revert Hnil. apply unphased_vectors_nonempty; lia.
    + intros call Hcall. apply in_map_iff in Hcall as (v & <- & _). reflexivity.
  - rewrite phased_calls_slots, indexed_slots_indices, length_indexed_slots. split.
    + intros Hnil. apply (f_equal (@length _)) in Hnil.
      rewrite length_indexed_slots in Hnil. cbn [length] in Hnil.
      destruct drop_last; cbn [Z.b2z] in Hnil; nia.
    + apply map_ext. intros k. reflexivity.
Qed.

Lemma slot_index_passed_to_callback_example :
  (1 <= 2 /\ 2 <= 3)
  /\ map snd (phased_calls 2 3 true) = map Z.of_nat (seq 0 (length (phased_calls 2 3 true))).
Proof.
  split; [lia |].
  apply (slot_index_passed_to_callback 2 3 true); lia.
Defined.

(** ** Empty cells *)

Lemma set_codec_buf_same (s : plink_state) : set_codec_buf (codec_buf s) s = s.
Proof. destruct s; reflexivity. Qed.

(** [write_zero] ignores its arguments: a run of calls appends one zero
    byte per call. *)
Lemma fold_write_zero (calls : list (list Z * Z)) (s : plink_state) :
  fold_left (apply_call write_zero) calls s
  = set_codec_buf (codec_buf s ++ replicate (length calls) 0) s.
Proof.
  revert s. induction calls as [| call calls IH]; intros s; cbn [fold_left length replicate].
  - now rewrite app_nil_r, set_codec_buf_same.
  - rewrite IH. unfold apply_call, write_zero. cbn [codec_buf set_codec_buf].
    now rewrite <- app_assoc.
Qed.

(** For two alleles or more, and for phased cells, the number of zero
    bytes is the number of probability slots. *)
Lemma bgen_empty_cell_slots (ploidy alleles : Z) (phased : bool) (s : plink_state) :
  0 <= ploidy -> (if phased then 1 <= alleles else 2 <= alleles) ->
  let slots :=
    if phased then Z.to_nat (ploidy * (alleles - 1))
    else (binom (Z.to_nat (ploidy + alleles - 1)) (Z.to_nat (alleles - 1)) - 1)%nat in
  bgen_empty_cell ploidy alleles phased s
  = Some (set_codec_buf (codec_buf s ++ replicate slots 0) s).
Proof.
  intros HP HK slots. unfold bgen_empty_cell. destruct phased.
  - rewrite bgen_enumerate_phased_slots, fold_write_zero, length_indexed_slots.
    subst slots. cbn [Z.b2z]. do 4 f_equal. nia.
  - rewrite bgen_enumerate_unphased_vectors, fold_write_zero, length_map by lia.
    destruct (unphased_vectors_dropping_last ploidy alleles) as (k & n & HK' & Hn & Hupto & _);
      [lia | lia |].
    pose proof (length_count_vectors_upto k n n (length_count_vectors k) (Nat.le_refl n))
      as Hlen.
    rewrite Nat.sub_diag, binom_diag in Hlen. rewrite Hupto.
    subst slots. do 4 f_equal.
    replace (Z.to_nat (ploidy + alleles - 1)) with (n + S k)%nat by lia.
    replace (Z.to_nat (alleles - 1)) with (S k) by lia. lia.
Qed.

(** C5 does not hold of the code: for an unphased cell with a single
    allele, [bgen_empty_cell] appends one zero byte, whatever the ploidy,
    where the number of slots [C(P+1-1, 1-1) - 1] is zero (and where the
    phased enumeration, for the same cell, makes no call). *)
Theorem bgen_empty_cell_single_allele (ploidy : Z) (s : plink_state) :
  bgen_empty_cell ploidy 1 false s = Some (set_codec_buf (codec_buf s ++ [0]) s)
  /\ (binom (Z.to_nat (ploidy + 1 - 1)) (Z.to_nat (1 - 1)) - 1 = 0)%nat
  /\ bgen_empty_cell ploidy 1 true s = Some s.
Proof.
  split; [reflexivity |]. split.
  - cbn [Z.sub Z.opp Z.add Z.pos_sub Z.to_nat]. now rewrite binom_0_r.
  - unfold bgen_empty_cell. rewrite bgen_enumerate_phased_slots, fold_write_zero.
    rewrite length_indexed_slots. cbn [Z.b2z Z.sub Z.opp Z.add Z.pos_sub Z.to_nat].
    rewrite Nat.mul_0_r. cbn [replicate]. now rewrite app_nil_r, set_codec_buf_same.
Qed.

(** * Further properties *)

(** ** The text of a field value *)

Lemma kinds_exclusive (t : FieldType.genomic_field_type_t) :
  (FieldType.is_int t = true ->
     FieldType.is_float t = false /\ FieldType.is_char t = false
     /\ FieldType.is_string t = false)
  /\ (FieldType.is_float t = true ->
        FieldType.is_char t = false /\ FieldType.is_string t = false)
  /\ (FieldType.is_char t = true -> FieldType.is_string t = false).
Proof.
  unfold FieldType.is_int, FieldType.is_float, FieldType.is_char, FieldType.is_string.
  destruct (FieldType.type_idx t), (FieldType.is_fixed_num_elements t); cbn;
    repeat split; intros; congruence.
Qed.

Lemma accessor_in_range {A : Type} (f : Field.genomic_field_t) (offset : N)
    (k : unit -> Field.result A) :
  (offset < Field.num_elements f)%N ->
  Field.bind (Field.check_offset f offset) k = k tt.
Proof. intros Hlt. now rewrite check_offset_in_range. Qed.

Lemma accessor_out_of_range {A : Type} (f : Field.genomic_field_t) (offset : N)
    (k : unit -> Field.result A) :
  (Field.num_elements f <= offset)%N ->
  Field.bind (Field.check_offset f offset) k
  = Field.Throws (Field.Exception (Field.offset_message f offset)).
Proof. intros Hge. now rewrite check_offset_out_of_range. Qed.

Section FieldTextFacts.
Variable float_to_string : Z -> string.

Lemma to_string_at_in_range (f : Field.genomic_field_t) (offset : N)
    (t : FieldType.genomic_field_type_t) :
  (offset < Field.num_elements f)%N ->
  FieldText.to_string_at float_to_string f offset t
  = Field.Returns (FieldText.element_text float_to_string f t offset).
Proof.
  intros Hlt. unfold FieldText.to_string_at, FieldText.element_text.
  unfold Field.int_value_at, Field.float_value_at, Field.char_value_at.
  rewrite !accessor_in_range by exact Hlt.
  destruct (FieldType.is_int t); [reflexivity |].
  destruct (FieldType.is_float t); [reflexivity |].
  destruct (FieldType.is_char t); reflexivity.
Qed.

(** X1: [to_string(offset, field_type)] checks the offset for the [int],
    [float] and fixed-size [char] kinds only: there it returns the text of
    the element for [offset < num_elements] (a [char] as the decimal of its
    code) and throws the offset error otherwise; for a string or any other
    kind it returns the empty text for every offset, in range or not. *)
Theorem to_string_at_checks_numeric_kinds (f : Field.genomic_field_t) (offset : N)
    (t : FieldType.genomic_field_type_t) :
  let text := FieldText.to_string_at float_to_string f offset t in
  let checked :=
    FieldType.is_int t || FieldType.is_float t || FieldType.is_char t in
  (checked = true ->
     ((offset < Field.num_elements f)%N ->
        text = Field.Returns (FieldText.element_text float_to_string f t offset))
     /\ ((Field.num_elements f <= offset)%N ->
           text = Field.Throws (Field.Exception (Field.offset_message f offset))))
  /\ (checked = false -> text = Field.Returns ""%string)
  /\ (FieldType.is_char t = true -> (offset < Field.num_elements f)%N ->
        text = Field.Returns
                 (FieldText.int_to_string (char_value (Field.ptr f offset))))
  /\ (FieldType.is_string t = true -> text = Field.Returns ""%string).
Proof.
  intros text checked. subst text checked.
  destruct (kinds_exclusive t) as (Hint & Hfloat & Hchar).
  split; [| split; [| split]].
  - intros Hchecked. split; [apply to_string_at_in_range |].
    intros Hge. unfold FieldText.to_string_at.
    unfold Field.int_value_at, Field.float_value_at, Field.char_value_at.
    rewrite !accessor_out_of_range by exact Hge.
    destruct (FieldType.is_int t); [reflexivity |].
    destruct (FieldType.is_float t); [reflexivity |].
    destruct (FieldType.is_char t); [reflexivity | discriminate Hchecked].
  - intros Hchecked. unfold FieldText.to_string_at.
    destruct (FieldType.is_int t); [discriminate Hchecked |].
    destruct (FieldType.is_float t); [discriminate Hchecked |].
    destruct (FieldType.is_char t); [discriminate Hchecked | reflexivity].
  - intros His Hlt. rewrite to_string_at_in_range by exact Hlt.
    unfold FieldText.element_text. rewrite His.
    destruct (FieldType.is_int t) eqn:Hi; [destruct (Hint eq_refl) as (_ & H & _); congruence |].
    destruct (FieldType.is_float t) eqn:Hf; [destruct (Hfloat eq_refl) as (H & _); congruence |].
    reflexivity.
  - intros His. unfold FieldText.to_string_at.
    destruct (FieldType.is_int t) eqn:Hi; [destruct (Hint eq_refl) as (_ & _ & H); congruence |].
    destruct (FieldType.is_float t) eqn:Hf; [destruct (Hfloat eq_refl) as (_ & H); congruence |].
    destruct (FieldType.is_char t) eqn:Hc; [rewrite (Hchar eq_refl) in His; discriminate |].
    reflexivity.
Qed.
End FieldTextFacts.

Lemma to_string_at_example :
  let f := {| Field.name := "BaseQ"; Field.ptr := fun _ => 65; Field.num_elements := 2 |} in
  let t := {| FieldType.type_idx := FieldType.typeid_char;
              FieldType.is_fixed_num_elements := true;
              FieldType.num_elements := 1; FieldType.num_dimensions := 1;
              FieldType.contains_phase_info := false |} in
  FieldText.to_string_at (fun _ => ""%string) f 1 t = Field.Returns "65"%string.
Proof.
  intros f t.
  destruct (to_string_at_checks_numeric_kinds (fun _ => ""%string) f 1 t)
    as (_ & _ & Hchar & _).
  apply Hchar; [reflexivity | vm_compute; reflexivity].
Defined.

Lemma string_app_cons (x : ascii) (a b : string) :
  (String x a ++ b = String x (a ++ b))%string.
Proof. reflexivity. Qed.

Lemma string_app_nil_l (a : string) : ("" ++ a = a)%string.
Proof. reflexivity. Qed.

Lemma string_app_assoc (a b c : string) : ((a ++ b) ++ c = a ++ (b ++ c))%string.
Proof.
  induction a as [| x a IH]; [reflexivity |].
  rewrite !string_app_cons. f_equal. exact IH.
Qed.

Lemma string_app_nil_r (a : string) : (a ++ "" = a)%string.
Proof.
  induction a as [| x a IH]; [reflexivity |].
  rewrite string_app_cons. f_equal. exact IH.
Qed.

Lemma separated_snoc (sep e : string) (elements : list string) :
  separated sep (elements ++ [e]) = (separated sep elements ++ e ++ sep)%string.
Proof.
  induction elements as [| x elements IH]; cbn [app separated].
  - now rewrite string_app_nil_l, string_app_nil_r.
  - now rewrite IH, !string_app_assoc.
Qed.

Lemma concat_snoc (sep e : string) (elements : list string) :
  String.concat sep (elements ++ [e]) = (separated sep elements ++ e)%string.
Proof.
  induction elements as [| x elements IH]; [reflexivity |].
  cbn [app separated]. rewrite !string_app_assoc, <- IH.
  destruct elements; reflexivity.
Qed.

Section FieldListFacts.
Variable float_to_string : Z -> string.
Variable recombine_ALT_value : Field.genomic_field_t -> Field.result string.
Variable combine_GT_vector :
  Field.genomic_field_t -> FieldType.genomic_field_type_t -> Field.result string.

(** The loop of [to_string] before its last round. *)
Lemma to_string_loop (f : Field.genomic_field_t) (t : FieldType.genomic_field_type_t)
    (sep : string) (m : nat) :
  (m < N.to_nat (Field.num_elements f))%nat ->
  for_upto m (FieldText.append_element float_to_string f t sep) (Field.Returns ""%string)
  = Field.Returns
      (separated sep
         (map (fun i => FieldText.element_text float_to_string f t (N.of_nat i))
              (seq 0 m))).
Proof.
  induction m as [| m IH]; intros Hm; [reflexivity |].
  rewrite for_upto_S, IH by lia. unfold FieldText.append_element. cbn [Field.bind].
  replace (Z.to_N (Z.of_nat m)) with (N.of_nat m) by lia.
  rewrite to_string_at_in_range by lia. cbn [Field.bind].
  destruct (N.ltb_spec (N.of_nat m) (Field.num_elements f - 1)) as [_ | Hge]; [| lia].
  rewrite seq_S, map_app. cbn [map Nat.add]. rewrite separated_snoc.
  now rewrite string_app_assoc.
Qed.

(** X2: for a field that is no string, is not named [GT] and has not
    exactly one element, [to_string] returns the texts of all its elements,
    in order, with the separator between consecutive ones and brackets
    around; no offset error can arise, and an empty field gives ["[]"]. *)
Theorem to_string_lists_elements (fuel : nat) (f : Field.genomic_field_t)
    (t : FieldType.genomic_field_type_t) (sep : string) :
  FieldType.is_string t = false ->
  Field.num_elements f <> 1%N ->
  Field.name f <> "GT"%string ->
  FieldText.to_string float_to_string recombine_ALT_value combine_GT_vector
    fuel f t sep
  = Some (Field.Returns
      ("[" ++ String.concat sep
                (map (fun i => FieldText.element_text float_to_string f t (N.of_nat i))
                     (seq 0 (N.to_nat (Field.num_elements f))))
           ++ "]")%string).
Proof.
  intros Hstring Hone Hname. unfold FieldText.to_string. rewrite Hstring.
  destruct (N.eqb_spec (Field.num_elements f) 1) as [Heq | _]; [contradiction |].
  destruct (String.eqb_spec (Field.name f) "GT") as [Heq | _]; [contradiction |].
  do 2 f_equal.
  destruct (N.to_nat (Field.num_elements f)) as [| m] eqn:Hn; [reflexivity |].
  rewrite for_upto_S, to_string_loop by lia.
  unfold FieldText.append_element. cbn [Field.bind].
  replace (Z.to_N (Z.of_nat m)) with (N.of_nat m) by lia.
  rewrite to_string_at_in_range by lia. cbn [Field.bind].
  destruct (N.ltb_spec (N.of_nat m) (Field.num_elements f - 1)) as [Hlt | _]; [lia |].
  cbn [Field.bind]. rewrite seq_S, map_app. cbn [map Nat.add].
  now rewrite concat_snoc.
Qed.
End FieldListFacts.

Lemma to_string_lists_elements_example :
  let f := {| Field.name := "DP";
              Field.ptr := fun i => if (i mod 4 =? 0)%N then Z.of_N (i / 4) + 7 else 0;
              Field.num_elements := 3 |} in
  let t := {| FieldType.type_idx := FieldType.typeid_int;
              FieldType.is_fixed_num_elements := false;
              FieldType.num_elements := 0; FieldType.num_dimensions := 1;
              FieldType.contains_phase_info := false |} in
  (FieldType.is_string t = false /\ Field.num_elements f <> 1%N
   /\ Field.name f <> "GT"%string)
  /\ FieldText.to_string (fun _ => ""%string) (fun _ => Field.Returns ""%string)
       (fun _ _ => Field.Returns ""%string) 0 f t ", "
     = Some (Field.Returns "[7, 8, 9]"%string).
Proof.
  intros f t.
  assert (FieldType.is_string t = false) as H1 by reflexivity.
  assert (Field.num_elements f <> 1%N) as H2 by (vm_compute; discriminate).
  assert (Field.name f <> "GT"%string) as H3 by (vm_compute; discriminate).
  split; [repeat split; assumption |].
  rewrite (to_string_lists_elements (fun _ => ""%string)
             (fun _ => Field.Returns ""%string) (fun _ _ => Field.Returns ""%string)
             0 f t ", " H1 H2 H3).
  reflexivity.
Defined.

Lemma c_strlen_first (mem : N -> Z) (size : N) (fuel : nat) (from : N) :
  (from <= size)%N ->
  (N.to_nat (size - from) < fuel)%nat ->
  mem size = 0 ->
  (forall i, (from <= i < size)%N -> mem i <> 0) ->
  FieldText.c_strlen mem fuel from = Some size.
Proof.
  revert from. induction fuel as [| fuel IH]; intros from Hle Hfuel Hzero Hbefore; [lia |].
  cbn [FieldText.c_strlen].
  destruct (N.eq_dec from size) as [-> | Hne].
  - now rewrite Hzero.
  - destruct (Z.eqb_spec (mem from) 0) as [Hz | _]; [exfalso; apply (Hbefore from); [lia | exact Hz] |].
    apply IH; [lia | lia | exact Hzero |].
    intros i Hi. apply Hbefore. lia.
Qed.

Lemma c_strlen_unterminated (mem : N -> Z) (fuel : nat) (from : N) :
  (forall i, (from <= i < from + N.of_nat fuel)%N -> mem i <> 0) ->
  FieldText.c_strlen mem fuel from = None.
Proof.
  revert from. induction fuel as [| fuel IH]; intros from Hnone; [reflexivity |].
  cbn [FieldText.c_strlen].
  destruct (Z.eqb_spec (mem from) 0) as [Hz | _]; [exfalso; apply (Hnone from); [lia | exact Hz] |].
  apply IH. intros i Hi. apply Hnone. lia.
Qed.

Lemma length_string_of_bytes (bytes : list Z) :
  String.length (FieldText.string_of_bytes bytes) = length bytes.
Proof.
  unfold FieldText.string_of_bytes.
  induction bytes as [| b bytes IH]; cbn; [reflexivity | now rewrite IH].
Qed.

(** X3: when the first zero byte of the buffer is at index [size],
    [str_value] returns, for any fuel above [size], the bytes before it,
    cut to the first [num_elements]: never more than [num_elements]
    characters and never a byte at or after the terminator. *)
Theorem str_value_stops_at_terminator (f : Field.genomic_field_t) (size : N)
    (fuel : nat) :
  Field.ptr f size = 0 ->
  (forall i, (i < size)%N -> Field.ptr f i <> 0) ->
  (N.to_nat size < fuel)%nat ->
  let count := N.to_nat (N.min (Field.num_elements f) size) in
  exists text,
    FieldText.str_value fuel f = Some text
    /\ text = FieldText.string_of_bytes
                (map (fun i => Field.ptr f (N.of_nat i)) (seq 0 count))
    /\ String.length text = count
    /\ (String.length text <= N.to_nat (Field.num_elements f))%nat
    /\ (String.length text <= N.to_nat size)%nat.
Proof.
  intros Hzero Hbefore Hfuel count. eexists. split; [| split; [reflexivity |]].
  - unfold FieldText.str_value.
    rewrite (c_strlen_first (Field.ptr f) size fuel 0); [reflexivity | lia | lia | exact Hzero |].
    intros i Hi. apply Hbefore. lia.
  - rewrite length_string_of_bytes, length_map, length_seq. subst count. lia.
Qed.

Lemma str_value_stops_at_terminator_example :
  let f := {| Field.name := "REF";
              Field.ptr := fun i => if (i <? 2)%N then 65 + Z.of_N i else 0;
              Field.num_elements := 5 |} in
  (Field.ptr f 2 = 0 /\ (forall i, (i < 2)%N -> Field.ptr f i <> 0) /\ (N.to_nat 2 < 8)%nat)
  /\ FieldText.str_value 8 f = Some "AB"%string.
Proof.
  intros f.
  assert (forall i, (i < 2)%N -> Field.ptr f i <> 0) as Hbefore.
  { intros i Hi. cbn. destruct (N.ltb_spec i 2); lia. }
  split; [split; [reflexivity | split; [exact Hbefore | cbn; lia]] |].
  destruct (str_value_stops_at_terminator f 2 8 eq_refl Hbefore ltac:(cbn; lia))
    as (text & Hvalue & -> & _).
  exact Hvalue.
Defined.

(** Without a zero byte within reach, [str_value] gives nothing. *)
Lemma str_value_unterminated (f : Field.genomic_field_t) (fuel : nat) :
  (forall i, (i < N.of_nat fuel)%N -> Field.ptr f i <> 0) ->
  FieldText.str_value fuel f = None.
Proof.
  intros Hnone. unfold FieldText.str_value.
  rewrite c_strlen_unterminated; [reflexivity |]. intros i Hi. apply Hnone. lia.
Qed.

(** ** Totals of the progress bar *)

Lemma to_int32_small (z : Z) : - 2 ^ 31 <= z < 2 ^ 31 -> to_int32 z = z.
Proof. unfold to_int32. lia. Qed.

Lemma to_int64_small (z : Z) : - 2 ^ 63 <= z < 2 ^ 63 -> to_int64 z = z.
Proof. unfold to_int64. lia. Qed.

Lemma to_int32_range (z : Z) : - 2 ^ 31 <= to_int32 z < 2 ^ 31.
Proof. unfold to_int32. lia. Qed.

Lemma add_range_width_small (total : Z) (a : Z * Z) :
  0 <= fst a <= snd a -> snd a < 2 ^ 63 - 1 ->
  0 <= total -> total + range_width a < 2 ^ 31 ->
  add_range_width total a = total + range_width a.
Proof.
  intros Ha Hhi Htotal Hsum. unfold add_range_width, range_width in *.
  rewrite (to_int64_small (snd a - fst a)) by lia.
  rewrite (to_int64_small (snd a - fst a + 1)) by lia.
  rewrite to_int64_small by lia. apply to_int32_small. lia.
Qed.

Lemma total_width_nonneg (ranges : genomicsdb_ranges_t) :
  Forall (fun a => 0 <= fst a <= snd a /\ snd a < 2 ^ 63 - 1) ranges ->
  0 <= total_width ranges.
Proof.
  induction 1 as [| a ranges Ha _ IH]; [reflexivity |].
  cbn [total_width fold_right]. fold (total_width ranges). unfold range_width. lia.
Qed.

Lemma fold_add_range_width (ranges : genomicsdb_ranges_t) (total : Z) :
  Forall (fun a => 0 <= fst a <= snd a /\ snd a < 2 ^ 63 - 1) ranges ->
  0 <= total -> total + total_width ranges < 2 ^ 31 ->
  fold_left add_range_width ranges total = total + total_width ranges.
Proof.
  intros Hranges. revert total.
  induction Hranges as [| a ranges Ha Hranges IH]; intros total Htotal Hsum.
  - cbn. lia.
  - cbn [fold_left]. cbn [total_width fold_right] in *. fold (total_width ranges) in *.
    pose proof (total_width_nonneg ranges Hranges) as Hrest.
    assert (1 <= range_width a) as Hwidth by (unfold range_width; lia).
    rewrite add_range_width_small by lia. rewrite IH by lia. lia.
Qed.

(** X4: when every range is well formed ([0 <= lo <= hi <= INT64_MAX - 1])
    and the widths [hi - lo + 1] add up to less than [2^31], the total the
    constructor computes for the progress bar is exactly that sum. *)
Theorem progress_total_exact (ranges : genomicsdb_ranges_t) :
  Forall (fun a => 0 <= fst a <= snd a /\ snd a < 2 ^ 63 - 1) ranges ->
  total_width ranges < 2 ^ 31 ->
  progress_total ranges = total_width ranges.
Proof.
  intros Hranges Hsum. unfold progress_total.
  rewrite fold_add_range_width by (assumption || lia). lia.
Qed.

Lemma progress_total_exact_example :
  (Forall (fun a => 0 <= fst a <= snd a /\ snd a < 2 ^ 63 - 1) [(0, 49); (100, 119)]
   /\ total_width [(0, 49); (100, 119)] < 2 ^ 31)
  /\ progress_total [(0, 49); (100, 119)] = 70.
Proof.
  assert (Forall (fun a => 0 <= fst a <= snd a /\ snd a < 2 ^ 63 - 1)
                 [(0, 49); (100, 119)]) as Hranges
    by (repeat constructor; cbn; lia).
  assert (total_width [(0, 49); (100, 119)] < 2 ^ 31) as Hsum by (vm_compute; reflexivity).
  split; [split; assumption |].
  rewrite (progress_total_exact _ Hranges Hsum). reflexivity.
Defined.

(** X5: for a single well-formed range the total is the width cut to a
    32-bit [int]: it is the width exactly when the width is below [2^31],
    and a wider range is reported as something else (the full scan
    [[0, INT64_MAX - 1]] as -1). *)
Theorem progress_total_wraps (lo hi : Z) :
  0 <= lo <= hi -> hi < 2 ^ 63 - 1 ->
  progress_total [(lo, hi)] = to_int32 (hi - lo + 1)
  /\ (progress_total [(lo, hi)] = hi - lo + 1 <-> hi - lo + 1 < 2 ^ 31)
  /\ - 2 ^ 31 <= progress_total [(lo, hi)] < 2 ^ 31.
Proof.
  intros Hlo Hhi.
  assert (progress_total [(lo, hi)] = to_int32 (hi - lo + 1)) as Htotal.
  { unfold progress_total, add_range_width. cbn [fold_left fst snd].
    rewrite (to_int64_small (hi - lo)) by lia.
    rewrite (to_int64_small (hi - lo + 1)) by lia.
    rewrite Z.add_0_l. now rewrite to_int64_small by lia. }
  rewrite Htotal. split; [reflexivity |]. split; [| apply to_int32_range].
  split.
  - intros Heq. pose proof (to_int32_range (hi - lo + 1)). lia.
  - intros Hsmall. apply to_int32_small. lia.
Qed.

Lemma progress_total_wraps_full_scan :
  (0 <= 0 <= INT64_MAX - 1 /\ INT64_MAX - 1 < 2 ^ 63 - 1)
  /\ progress_total SCAN_FULL = -1.
Proof.
  split; [vm_compute; repeat split; discriminate |].
  destruct (progress_total_wraps 0 (INT64_MAX - 1)) as (Htotal & _).
  - vm_compute; split; discriminate.
  - vm_compute; reflexivity.
  - exact Htotal.
Defined.

(** ** More on the BED stream *)

Lemma to_char_is_byte (z : Z) : is_byte (to_char z).
Proof. unfold is_byte, to_char. lia. Qed.

(** One [write_to_bed] on a buffer holding [state] codes, for any argument. *)
Lemma write_to_bed_step (x : Z) (s : plink_state) :
  0 <= bed_buf_state s <= 3 ->
  write_to_bed x s
  = if bed_buf_state s =? 3
    then set_bed (bed_file s ++ [to_char (bed_buf s + x * 4 ^ bed_buf_state s)]) 0 0 s
    else set_bed (bed_file s) (to_char (bed_buf s + x * 4 ^ bed_buf_state s))
                 (bed_buf_state s + 1) s.
Proof.
  intros Hstate. unfold write_to_bed.
  assert (bed_buf_state s = 0 \/ bed_buf_state s = 1 \/ bed_buf_state s = 2
          \/ bed_buf_state s = 3) as [-> | [-> | [-> | ->]]] by lia;
    cbn [char_value Z.ltb Z.compare Pos.compare Pos.compare_cont Z.mul Pos.mul Z.eqb
         Pos.eqb Z.add Pos.add Pos.succ];
    rewrite Z.shiftl_mul_pow2 by lia; reflexivity.
Qed.

Lemma bed_step_keeps_buffer_ok (s : plink_state) (c : bed_call) :
  bed_buffer_ok s -> Forall is_byte (bed_file s) ->
  bed_buffer_ok (bed_step s c) /\ Forall is_byte (bed_file (bed_step s c)).
Proof.
  intros (Hstate & Hbuf & Hempty) Hfile. destruct c as [x |]; cbn [bed_step].
  - rewrite write_to_bed_step by exact Hstate.
    destruct (Z.eqb_spec (bed_buf_state s) 3) as [H3 | Hn3];
      unfold bed_buffer_ok; cbn [set_bed bed_buf_state bed_buf bed_file].
    + split; [split; [lia | split; [unfold is_byte; lia | reflexivity]] |].
      apply Forall_app. split; [exact Hfile |].
      constructor; [apply to_char_is_byte | constructor].
    + split; [| exact Hfile].
      split; [lia | split; [apply to_char_is_byte | lia]].
  - unfold flush_to_bed.
    destruct (Z.eqb_spec (bed_buf_state s) 0) as [H0 | Hn0].
    + split; [repeat split; assumption || lia | exact Hfile].
    + unfold bed_buffer_ok; cbn [set_bed bed_buf_state bed_buf bed_file].
      split; [split; [lia | split; [unfold is_byte; lia | reflexivity]] |].
      apply Forall_app. split; [exact Hfile |]. constructor; [exact Hbuf | constructor].
Qed.

Lemma bed_run_keeps_buffer_ok (calls : list bed_call) (s : plink_state) :
  bed_buffer_ok s -> Forall is_byte (bed_file s) ->
  bed_buffer_ok (bed_run calls s) /\ Forall is_byte (bed_file (bed_run calls s)).
Proof.
  revert s. induction calls as [| c calls IH]; intros s Hs Hfile; [split; assumption |].
  cbn [bed_run fold_left]. destruct (bed_step_keeps_buffer_ok s c Hs Hfile) as [Hs' Hfile'].
  apply (IH _ Hs' Hfile').
Qed.

(** X6: whatever [write_to_bed] and [flush_to_bed] calls follow the
    constructor, with whatever arguments, the count of buffered codes stays
    within 0..3, the one-byte buffer is zero whenever that count is zero,
    and the BED file holds bytes only. *)
Theorem bed_buffer_invariant (junk : Z * Z * Z) (calls : list bed_call) :
  let s := bed_run calls (GenomicsDBPlinkProcessor junk) in
  0 <= bed_buf_state s <= 3
  /\ is_byte (bed_buf s)
  /\ (bed_buf_state s = 0 -> bed_buf s = 0)
  /\ Forall is_byte (bed_file s).
Proof.
  intros s.
  destruct (bed_run_keeps_buffer_ok calls (GenomicsDBPlinkProcessor junk))
    as ((Hstate & Hbuf & Hempty) & Hfile).
  - repeat split; cbn; lia.
  - repeat constructor; cbn; lia.
  - exact (conj Hstate (conj Hbuf (conj Hempty Hfile))).
Qed.

Lemma write_to_bed_on (x : Z) (file : list Z) (buf state : Z) (s : plink_state) :
  0 <= state <= 3 ->
  write_to_bed x (set_bed file buf state s)
  = if state =? 3
    then set_bed (file ++ [to_char (buf + x * 4 ^ state)]) 0 0 s
    else set_bed file (to_char (buf + x * 4 ^ state)) (state + 1) s.
Proof. intros Hstate. now rewrite write_to_bed_step. Qed.

(** X7: four [write_to_bed] calls on an empty buffer emit the byte
    [(a + 4 b + 16 c + 64 d) mod 256] for any arguments: an argument is not
    cut to two bits, so one outside 0..3 carries into the bit pairs of the
    codes after it. *)
Theorem write_to_bed_does_not_mask (a b c d : Z) (s : plink_state) :
  bed_buf s = 0 -> bed_buf_state s = 0 ->
  write_to_bed d (write_to_bed c (write_to_bed b (write_to_bed a s)))
  = set_bed (bed_file s ++ [(a + 4 * b + 16 * c + 64 * d) mod 256]) 0 0 s.
Proof.
  intros Hbuf Hstate.
  rewrite (write_to_bed_step a s) by lia. rewrite Hbuf, Hstate.
  change (0 =? 3) with false. cbn iota.
  rewrite write_to_bed_on by lia. change (0 + 1 =? 3) with false. cbn iota.
  rewrite write_to_bed_on by lia. change (0 + 1 + 1 =? 3) with false. cbn iota.
  rewrite write_to_bed_on by lia. change (0 + 1 + 1 + 1 =? 3) with true. cbn iota.
  do 3 f_equal. unfold to_char.
  change (4 ^ 0) with 1. change (4 ^ (0 + 1)) with 4.
  change (4 ^ (0 + 1 + 1)) with 16. change (4 ^ (0 + 1 + 1 + 1)) with 64.
  lia.
Qed.

Lemma write_to_bed_does_not_mask_example :
  let s := GenomicsDBPlinkProcessor (0, 0, 0) in
  (bed_buf s = 0 /\ bed_buf_state s = 0)
  /\ bed_unpack
       (drop 3 (bed_file
                  (write_to_bed 0 (write_to_bed 0 (write_to_bed 0 (write_to_bed 6 s))))))
     = [2; 1; 0; 0].
Proof.
  intros s. split; [split; reflexivity |].
  rewrite (write_to_bed_does_not_mask 6 0 0 0 s eq_refl eq_refl). reflexivity.
Defined.

Lemma bed_run_app (calls later : list bed_call) (s : plink_state) :
  bed_run (calls ++ later) s = bed_run later (bed_run calls s).
Proof. apply fold_left_app. Qed.

(** One row: the codes of a variant, then the flush. *)
Lemma bed_run_row (codes : list Z) (s : plink_state) :
  Forall is_code codes -> bed_buf s = 0 -> bed_buf_state s = 0 ->
  bed_run (bed_row codes) s = set_bed (bed_file s ++ bed_pack codes) 0 0 s.
Proof.
  intros Hcodes Hbuf Hstate. unfold bed_row.
  rewrite bed_run_app, bed_run_write_codes by assumption.
  cbn [bed_run fold_left bed_step]. unfold flush_to_bed, bed_pack.
  cbn [set_bed bed_buf_state bed_file bed_buf].
  destruct (Nat.eqb_spec (length codes mod 4) 0) as [H0 | Hn0].
  - rewrite H0, (bed_pending_none codes H0). cbn [Z.of_nat Z.eqb].
    now rewrite app_nil_r.
  - destruct (Z.eqb_spec (Z.of_nat (length codes mod 4)) 0) as [H0 | _]; [lia |].
    rewrite set_bed_set_bed. now rewrite <- app_assoc.
Qed.

Lemma bed_run_rows (rows : list (list Z)) (s : plink_state) :
  Forall (Forall is_code) rows -> bed_buf s = 0 -> bed_buf_state s = 0 ->
  bed_run (concat (map bed_row rows)) s
  = set_bed (bed_file s ++ concat (map bed_pack rows)) 0 0 s.
Proof.
  intros Hrows. revert s.
  induction Hrows as [| row rows Hrow _ IH]; intros s Hbuf Hstate.
  - cbn. rewrite app_nil_r, <- Hbuf at 1. rewrite <- Hstate at 1.
    destruct s; reflexivity.
  - cbn [map concat]. rewrite bed_run_app, bed_run_row by assumption.
    rewrite IH by reflexivity. rewrite set_bed_set_bed. cbn [bed_file set_bed].
    now rewrite <- app_assoc.
Qed.

Lemma block_of_concat {A : Type} (blocks : list (list A)) (w m : nat) (block : list A) :
  Forall (fun b => length b = w) blocks ->
  blocks !! m = Some block ->
  take w (drop (m * w) (concat blocks)) = block.
Proof.
  intros Hblocks. revert m.
  induction Hblocks as [| b blocks Hb _ IH]; intros m Hm; [discriminate Hm |].
  destruct m as [| m]; cbn [concat].
  - injection Hm as ->. cbn [Nat.mul drop]. rewrite <- Hb. apply take_app_length.
  - cbn in Hm. replace (S m * w)%nat with (length b + m * w)%nat by lia.
    rewrite drop_app_add. apply IH, Hm.
Qed.

(** X8: after the constructor, rows of 2-bit codes, each written with
    [write_to_bed] and closed by [flush_to_bed], leave in the BED file the
    magic followed by the packed rows one after the other, each row
    starting on a byte of its own, and the buffer empty.  When every row
    has [n] codes, row [m] is the [(n + 3) / 4] bytes from offset
    [3 + m * ((n + 3) / 4)]. *)
Theorem bed_rows_are_byte_aligned (junk : Z * Z * Z) (rows : list (list Z)) :
  Forall (Forall is_code) rows ->
  let s := bed_run (concat (map bed_row rows)) (GenomicsDBPlinkProcessor junk) in
  bed_file s = [0x6C; 0x1B; 0x01] ++ concat (map bed_pack rows)
  /\ bed_buf s = 0
  /\ bed_buf_state s = 0
  /\ (forall (n m : nat) (row : list Z),
        Forall (fun r => length r = n) rows ->
        rows !! m = Some row ->
        take ((n + 3) / 4) (drop (3 + m * ((n + 3) / 4)) (bed_file s)) = bed_pack row
        /\ take n (bed_unpack (bed_pack row)) = row).
Proof.
  intros Hrows s.
  assert (s = set_bed ([0x6C; 0x1B; 0x01] ++ concat (map bed_pack rows)) 0 0
                (GenomicsDBPlinkProcessor junk)) as Hs
    by (apply bed_run_rows; assumption || reflexivity).
  rewrite Hs. cbn [set_bed bed_file bed_buf bed_buf_state].
  split; [reflexivity |]. split; [reflexivity |]. split; [reflexivity |].
  intros n m row Hn Hm. split.
  - replace (drop (3 + m * ((n + 3) / 4))
               ([0x6C; 0x1B; 0x01] ++ concat (map bed_pack rows)))
      with (drop (m * ((n + 3) / 4)) (concat (map bed_pack rows)))
      by (symmetry; apply (drop_app_add [0x6C; 0x1B; 0x01])).
    apply block_of_concat; [| now rewrite list_lookup_fmap, Hm].
    apply Forall_fmap. eapply Forall_impl; [exact Hn |].
    intros r Hr. cbn. now rewrite length_bed_pack, Hr.
  - assert (In row rows) as Hin
      by (apply list_elem_of_In; eapply list_elem_of_lookup_2, Hm).
    assert (Forall is_code row) as Hrow
      by (rewrite Forall_forall in Hrows; apply Hrows, list_elem_of_In, Hin).
    assert (length row = n) as Hlen
      by (rewrite Forall_forall in Hn; apply Hn, list_elem_of_In, Hin).
    rewrite <- Hlen, bed_unpack_pack by exact Hrow. apply take_app_length.
Qed.

Lemma bed_rows_are_byte_aligned_example :
  let rows := [[3; 2; 1; 0; 3]; [0; 1; 2; 3; 0]] in
  Forall (Forall is_code) rows
  /\ bed_file (bed_run (concat (map bed_row rows)) (GenomicsDBPlinkProcessor (0, 0, 0)))
     = [0x6C; 0x1B; 0x01] ++ concat (map bed_pack rows).
Proof.
  intros rows.
  assert (Forall (Forall is_code) rows) as Hrows
    by (repeat constructor; unfold is_code; lia).
  split; [exact Hrows |].
  apply (bed_rows_are_byte_aligned (0, 0, 0) rows Hrows).
Defined.

(** ** More on the enumeration of slots *)

Section AnyCallback.
Variables (ploidy alleles : Z) (drop_last : bool) (ind : Z).

Local Abbreviation recorded depth used allele_counts :=
  (enumerate_unphased ploidy alleles drop_last record_call ind depth used
     (allele_counts, [])).

(** The lambda with any callback, against the lambda that records. *)
Lemma enumerate_unphased_any_callback (depth : nat) :
  forall (St : Type) (callback : @callback_t St) (used : Z) (allele_counts : list Z)
         (st : St),
    enumerate_unphased ploidy alleles drop_last callback ind depth used
      (allele_counts, st)
    = (fst (recorded depth used allele_counts),
       fold_left (apply_call callback) (snd (recorded depth used allele_counts)) st).
Proof.
  induction depth as [| depth' IH]; intros St callback used ac st; [reflexivity |].
  rewrite !enumerate_unphased_S.
  generalize (Z.to_nat
                (ploidy - used
                 - Z.b2z ((Z.of_nat (S depth') =? alleles - 1) && drop_last) + 1)).
  intros m. induction m as [| m IHm]; [reflexivity |].
  rewrite !for_upto_S, IHm. cbn [fst snd].
  rewrite (IH St callback). rewrite (IH _ record_call _ _ (snd _)).
  cbn [fst snd]. now rewrite fold_record_call, fold_left_app.
Qed.
End AnyCallback.


Lemma unphased_vectors_keeping_last (ploidy alleles : Z) :
  0 <= ploidy -> 1 <= alleles ->
  unphased_vectors ploidy alleles false
  = count_vectors (Z.to_nat alleles) (Z.to_nat ploidy).
Proof.
  intros HP HK. unfold unphased_vectors.
  destruct (Z.to_nat (alleles - 1)) as [| depth'] eqn:Hdepth.
  - replace (Z.to_nat alleles) with 1%nat by lia. cbn [count_vectors].
    do 2 f_equal. lia.
  - replace (Z.to_nat alleles) with (S (S depth')) by lia.
    rewrite count_vectors_SS. cbn [Z.b2z]. f_equal. lia.
Qed.

Lemma last_count_vector (k n : nat) :
  List.last (count_vectors (S k) n) [] = last_vector (Z.of_nat n) (S k).
Proof.
  destruct k as [| k]; [reflexivity |].
  rewrite count_vectors_last. apply last_last.
Qed.

(** X10: with [drop_last = false], for a ploidy [P >= 0] and [K >= 1]
    alleles, [bgen_enumerate_unphased] runs its callback [C(P+K-1, K-1)]
    times: once for each count vector of [K] non-negative entries with sum
    [P], in the order of the nested loops, [(0, ..., 0, P)] last. *)
Theorem bgen_enumerate_unphased_keeping_last (ploidy alleles : Z) :
  0 <= ploidy -> 1 <= alleles ->
  exists calls,
    unphased_calls ploidy alleles false = Some calls
    /\ length calls = binom (Z.to_nat (ploidy + alleles - 1)) (Z.to_nat (alleles - 1))
    /\ (forall v, In v (map fst calls) <-> is_count_vector ploidy (Z.to_nat alleles) v)
    /\ StronglySorted loop_order (map fst calls)
    /\ List.last (map fst calls) [] = last_vector ploidy (Z.to_nat alleles).
Proof.
  intros HP HK.
  exists (map (fun v => (v, -1)) (unphased_vectors ploidy alleles false)).
  split; [apply unphased_calls_vectors; lia |].
  rewrite map_fst_with_index, length_map, unphased_vectors_keeping_last by lia.
  destruct (Z.to_nat alleles) as [| k] eqn:Hk; [lia |].
  split.
  { rewrite length_count_vectors. f_equal; lia. }
  split.
  { intros v. rewrite in_count_vectors. now rewrite Z2Nat.id by lia. }
  split; [apply sorted_count_vectors |].
  rewrite last_count_vector. now rewrite Z2Nat.id by lia.
Qed.

Lemma bgen_enumerate_unphased_keeping_last_example :
  (0 <= 2 /\ 1 <= 2)
  /\ exists calls,
       unphased_calls 2 2 false = Some calls
       /\ length calls = 3%nat.
Proof.
  split; [lia |].
  destruct (bgen_enumerate_unphased_keeping_last 2 2) as (calls & Hcalls & Hlen & _);
    [lia | lia |].
  exists calls. split; [exact Hcalls | exact Hlen].
Defined.

(** X11: for a ploidy [P >= 0] and [K >= 2] alleles, [drop_last] removes
    the last call and nothing else: the calls made without it are the calls
    made with it, followed by the call on [(0, ..., 0, P)]. *)
Theorem drop_last_removes_the_last_call (ploidy alleles : Z) :
  0 <= ploidy -> 2 <= alleles ->
  exists calls,
    unphased_calls ploidy alleles true = Some calls
    /\ unphased_calls ploidy alleles false
       = Some (calls ++ [(last_vector ploidy (Z.to_nat alleles), -1)]).
Proof.
  intros HP HK.
  destruct (unphased_vectors_dropping_last ploidy alleles HP HK)
    as (k & n & HK' & Hn & _ & Hall).
  exists (map (fun v => (v, -1)) (unphased_vectors ploidy alleles true)).
  split; [apply unphased_calls_vectors; lia |].
  rewrite unphased_calls_vectors, unphased_vectors_keeping_last by lia.
  rewrite HK' in *. replace (Z.to_nat ploidy) with n by lia.
  rewrite Hall, map_app. reflexivity.
Qed.

Lemma drop_last_removes_the_last_call_example :
  (0 <= 2 /\ 2 <= 3)
  /\ exists calls,
       unphased_calls 2 3 true = Some calls
       /\ unphased_calls 2 3 false = Some (calls ++ [([0; 0; 2], -1)]).
Proof.
  split; [lia |].
  apply (drop_last_removes_the_last_call 2 3); lia.
Defined.

(** X12: with two alleles or more, [bgen_enumerate_unphased] makes no call
    at all exactly when [P + 1 - drop_last <= 0]: with [drop_last] for a
    ploidy of zero or less, without it for a negative ploidy. *)
Theorem bgen_enumerate_unphased_makes_no_call (ploidy alleles : Z) (drop_last : bool) :
  2 <= alleles ->
  unphased_calls ploidy alleles drop_last = Some []
  <-> ploidy + 1 - Z.b2z drop_last <= 0.
Proof.
  intros HK. split.
  - intros Hnone.
    destruct (Z.le_gt_cases (ploidy + 1 - Z.b2z drop_last) 0) as [Hle | Hgt]; [exact Hle |].
    exfalso. assert (0 <= ploidy) as HP by (destruct drop_last; cbn [Z.b2z] in Hgt; lia).
    rewrite unphased_calls_vectors in Hnone by lia.
    injection Hnone as Hnone. apply map_eq_nil in Hnone. revert Hnone.
    unfold unphased_vectors.
    destruct (Z.to_nat (alleles - 1)) as [| depth'] eqn:Hdepth; [lia |].
    apply count_vectors_upto_nonempty; [apply count_vectors_nonempty | lia].
  - intros Hle. unfold unphased_calls, bgen_enumerate_unphased.
    destruct (Z.ltb_spec alleles 1) as [Hlt | _]; [lia |].
    destruct (Z.to_nat (alleles - 1)) as [| depth'] eqn:Hdepth; [lia |].
    rewrite enumerate_unphased_S.
    replace (Z.of_nat (S depth') =? alleles - 1) with true
      by (symmetry; apply Z.eqb_eq; lia).
    cbn [andb].
    replace (Z.to_nat (ploidy - 0 - Z.b2z drop_last + 1)) with 0%nat by lia.
    reflexivity.
Qed.

Lemma bgen_enumerate_unphased_makes_no_call_example :
  2 <= 3 /\ unphased_calls 0 3 true = Some [].
Proof.
  split; [lia |].
  apply (bgen_enumerate_unphased_makes_no_call 0 3 true); cbn; lia.
Defined.

Lemma indexed_slots_lookup (first : Z) (ploidy limit i j : nat) :
  (i < ploidy)%nat -> (j < limit)%nat ->
  indexed_slots first ploidy limit !! (i * limit + j)%nat
  = Some ([Z.of_nat i; Z.of_nat j], first + Z.of_nat (i * limit + j)).
Proof.
  intros Hi Hj. induction ploidy as [| p IH]; [lia |].
  unfold indexed_slots. rewrite flat_map_seq_S. fold (indexed_slots first p limit).
  destruct (Nat.eq_dec i p) as [-> | Hne].
  - rewrite lookup_app_r by (rewrite length_indexed_slots; lia).
    rewrite length_indexed_slots.
    replace (p * limit + j - p * limit)%nat with j by lia.
    change (map ?f ?l) with (f <$> l).
    rewrite list_lookup_fmap, lookup_seq_lt by exact Hj. reflexivity.
  - rewrite lookup_app_l by (rewrite length_indexed_slots; nia).
    apply IH. lia.
Qed.

(** X13: for every ploidy, allele count and [drop_last],
    [bgen_enumerate_phased] makes [max P 0 * max (K - drop_last) 0] calls;
    the call for haplotype [i] and allele [j] is call number
    [i * (K - drop_last) + j] and carries that number as its slot index.
    No call is made exactly when [P <= 0] or [K <= drop_last]. *)
Theorem bgen_enumerate_phased_slot_numbers (ploidy alleles : Z) (drop_last : bool) :
  let limit := Z.to_nat (alleles - Z.b2z drop_last) in
  let calls := phased_calls ploidy alleles drop_last in
  length calls = (Z.to_nat ploidy * limit)%nat
  /\ (forall i j : nat,
        (i < Z.to_nat ploidy)%nat -> (j < limit)%nat ->
        calls !! (i * limit + j)%nat
        = Some ([Z.of_nat i; Z.of_nat j], Z.of_nat (i * limit + j)))
  /\ (calls = [] <-> ploidy <= 0 \/ alleles <= Z.b2z drop_last).
Proof.
  intros limit calls. subst calls. rewrite phased_calls_slots. fold limit.
  split; [apply length_indexed_slots |]. split.
  - intros i j Hi Hj. now rewrite indexed_slots_lookup.
  - rewrite <- length_zero_iff_nil, length_indexed_slots. subst limit. nia.
Qed.

Lemma keep_all {A : Type} (f : A -> bool) (l : list A) :
  (forall x, In x l -> f x = true) -> List.filter f l = l.
Proof.
  induction l as [| a l IH]; intros Hall; [reflexivity |].
  cbn [List.filter]. rewrite (Hall a (or_introl eq_refl)).
  f_equal. apply IH. intros x Hx. apply Hall. now right.
Qed.

Lemma haplotype_slots_without_last_allele (ploidy k : nat) :
  haplotype_slots ploidy k
  = List.filter (fun v => negb (allele_of v =? Z.of_nat k))
      (haplotype_slots ploidy (S k)).
Proof.
  unfold haplotype_slots. induction ploidy as [| p IH]; [reflexivity |].
  rewrite !flat_map_seq_S, List.filter_app, <- IH. f_equal.
  rewrite seq_S, map_app, List.filter_app. cbn [map List.filter Nat.add allele_of nth].
  rewrite Z.eqb_refl. cbn [negb]. rewrite app_nil_r.
  symmetry. apply keep_all.
  intros v Hv. apply in_map_iff in Hv as (j & <- & Hj). apply in_seq in Hj.
  cbn [allele_of nth]. destruct (Z.eqb_spec (Z.of_nat j) (Z.of_nat k)); [lia | reflexivity].
Qed.

(** X14: for [K >= 1] alleles, the slots [bgen_enumerate_phased] visits
    with [drop_last] are those it visits without it, in the same order,
    less the slots of allele [K - 1]. *)
Theorem drop_last_removes_the_last_allele (ploidy alleles : Z) :
  1 <= alleles ->
  map fst (phased_calls ploidy alleles true)
  = List.filter (fun v => negb (allele_of v =? alleles - 1))
      (map fst (phased_calls ploidy alleles false)).
Proof.
  intros HK. rewrite !phased_calls_slots, !indexed_slots_vectors. cbn [Z.b2z].
  replace (Z.to_nat (alleles - 0)) with (S (Z.to_nat (alleles - 1))) by lia.
  rewrite (haplotype_slots_without_last_allele _ (Z.to_nat (alleles - 1))).
  now rewrite Z2Nat.id by lia.
Qed.

Lemma drop_last_removes_the_last_allele_example :
  1 <= 3
  /\ map fst (phased_calls 2 3 true)
     = List.filter (fun v => negb (allele_of v =? 3 - 1))
         [[0; 0]; [0; 1]; [0; 2]; [1; 0]; [1; 1]; [1; 2]].
Proof.
  split; [lia |].
  rewrite (drop_last_removes_the_last_allele 2 3) by lia. reflexivity.
Defined.

(** ** More on the genotype block *)

(** X15: for every ploidy, allele count and phase, [bgen_empty_cell]
    changes nothing but [codec_buf], to which it appends one zero byte for
    each call the enumerator of that phase makes with [drop_last]; it has
    no result exactly when that enumerator has none. *)
Theorem bgen_empty_cell_appends_zeros (ploidy alleles : Z) (phased : bool)
    (s : plink_state) :
  bgen_empty_cell ploidy alleles phased s
  = option_map
      (fun calls => set_codec_buf (codec_buf s ++ replicate (length calls) 0) s)
      (if phased then Some (phased_calls ploidy alleles true)
       else unphased_calls ploidy alleles true).
Proof.
  unfold bgen_empty_cell. destruct phased.
  - cbn [option_map].
    now rewrite bgen_enumerate_phased_slots, phased_calls_slots, fold_write_zero.
  - unfold unphased_calls, bgen_enumerate_unphased.
    destruct (alleles <? 1).
    + destruct ((alleles =? 0) && (ploidy - Z.b2z true <? 0)); [| reflexivity].
      cbn [option_map length replicate]. now rewrite app_nil_r, set_codec_buf_same.
    + cbn [option_map]. f_equal.
      now rewrite enumerate_unphased_any_callback, fold_write_zero.
Qed.


